(** * OneShip workflow engine: a shallow embedding and its properties

    The development follows the TypeScript sources of the workflow
    package: the shared types ([WorkflowStepStatus], [WorkflowStep],
    [WorkflowExecution]), the workflow definition, the five built-in
    step executors and the [WorkflowEngine] class with its two private
    methods [executeWorkflowAsync] and [executeStep].

    Modelling choices.
    - JavaScript values are the inductive [Value]: primitives and plain
      objects.  Numbers are JavaScript's safe integers (magnitude below
      2^53), on which comparison, increment and conversion to a string
      are those of the integers.  An array appears only where the code
      reads its [length], as an object with that property.
      A plain object used as a string-keyed record is a [gmap string Value].
    - The execution context is ONE mutable object.  It lives in a heap
      ([list] of objects, a location is an index) because the engine stores
      a reference to it in every step record ([input: context]) and later
      mutates it with [Object.assign].
    - Everything outside the engine (providers, the webhook delivery
      function, the clock, timers) acts on an abstract world [W]; a call
      that can throw returns an [Outcome].  TypeScript's types are taken
      at their word for arguments and results; what is thrown has no
      type, so a thrown value is any [Value], and [new Error(message)] is
      an object with that [message].  The three places that read
      [.message] off a caught value ([WebhookStepExecutor.execute],
      [executeStep] and the [catch] handler of [execute]) raise the
      runtime's TypeError when the value is [null] or [undefined].
    - The engine's own observable actions (one record per executor
      invocation, one per retry back-off) are appended to a log, so that
      invocations can be counted.
    - Executors read the context; they do not write to it (none of the
      built-in ones does). *)

From stdpp Require Import gmap strings list fin_maps pretty.
From Equations Require Import Equations.

Open Scope string_scope.
Open Scope list_scope.
Open Scope Z_scope.

(** ** JavaScript values *)

#[warnings="-register-all"] Inductive Value : Type :=
| VUndefined
| VNull
| VBool (b : bool)
| VNum (n : Z)
| VStr (s : string)
| VObj (fields : list (string * Value)).

Abbreviation Obj := (gmap string Value).

(** [!!v]: the values JavaScript treats as true in a condition. *)
Definition truthy (v : Value) : bool :=
  match v with
  | VUndefined | VNull => false
  | VBool b => b
  | VNum n => negb (n =? 0)
  | VStr s => negb (String.eqb s "")
  | VObj _ => true
  end.

(** [a || b] *)
Definition js_or (a b : Value) : Value := if truthy a then a else b.

(** Template-literal conversion [`${v}`] of a primitive or of a plain
    object.  A number prints its decimal digits, which is what JavaScript
    does for a safe integer. *)
Definition js_to_string (v : Value) : string :=
  match v with
  | VUndefined => "undefined"
  | VNull => "null"
  | VBool true => "true"
  | VBool false => "false"
  | VNum n => pretty n
  | VStr s => s
  | VObj _ => "[object Object]"
  end.

(** [o.k] on a record-like object: a missing key reads [undefined]. *)
Definition prop (o : Obj) (k : string) : Value := default VUndefined (o !! k).

Fixpoint assoc (k : string) (fields : list (string * Value)) : Value :=
  match fields with
  | [] => VUndefined
  | (k', v) :: rest => if String.eqb k' k then v else assoc k rest
  end.

(** [v?.k]: [undefined] when [v] is nullish, the property otherwise
    (primitives have no such own property). *)
Definition opt_prop (v : Value) (k : string) : Value :=
  match v with
  | VObj fields => assoc k fields
  | _ => VUndefined
  end.

(** An optional string field read as a value. *)
Definition of_opt_string (o : option string) : Value :=
  match o with Some s => VStr s | None => VUndefined end.

(** A string-or-undefined used as a condition: [undefined] and the empty
    string are false. *)
Definition truthy_id (o : option string) : bool := truthy (of_opt_string o).

(** [Object.assign(target, source)]: every key of [source] is written into
    [target]. *)
Definition object_assign (target source : Obj) : Obj := source ∪ target.

(** ** Shared types (core package) *)

Inductive WorkflowStepStatus : Type :=
| PENDING | RUNNING | SUCCESS | FAILED | SKIPPED.

#[global] Instance WorkflowStepStatus_eq_dec : EqDecision WorkflowStepStatus.
Proof. solve_decision. Defined.

Definition loc := nat.

Record WorkflowStep : Type := {
  ws_id : string;
  ws_name : string;
  ws_status : WorkflowStepStatus;
  ws_provider : option string;
  ws_input : option loc;          (* a reference to an object *)
  ws_output : option Obj;
  ws_error : Value;                (* [undefined] until one is assigned *)
  ws_startedAt : option Z;
  ws_completedAt : option Z
}.

Record WorkflowExecution : Type := {
  we_id : string;
  workflowId : string;
  orderId : Value;
  we_status : WorkflowStepStatus;
  we_steps : list WorkflowStep;
  we_startedAt : Z;
  we_completedAt : option Z;
  we_error : Value
}.

(** ** Workflow definition *)

Record RetryPolicy : Type := {
  maxAttempts : Z;
  delay : Z                        (* in milliseconds *)
}.

Record WorkflowStepDefinition : Type := {
  sd_id : string;
  sd_name : string;
  sd_type : string;
  sd_provider : option string;
  sd_config : option Obj;
  onSuccess : option string;       (* next step id on success *)
  onFailure : option string;       (* next step id on failure *)
  retry : option RetryPolicy
}.

Record WorkflowDefinition : Type := {
  wf_id : string;
  wf_name : string;
  steps : list WorkflowStepDefinition;
  trigger : string
}.

(** ** Calls that may throw *)

Inductive Outcome (A : Type) : Type :=
| Ok (a : A)
| Throw (error : Value).
Arguments Ok {A} a.
Arguments Throw {A} error.

(** [new Error(message)]: the object that is thrown, as far as the code
    ever looks at it. *)
Definition new_Error (message : string) : Value := VObj [("message", VStr message)].

Definition nullish (v : Value) : bool :=
  match v with
  | VUndefined | VNull => true
  | _ => false
  end.

(** The message of the TypeError the runtime raises for [v.k] when [v] is
    [null] or [undefined] (the wording of V8). *)
Definition cannot_read (v : Value) (k : string) : string :=
  "Cannot read properties of " +:+ js_to_string v +:+ " (reading '" +:+ k +:+ "')".

(** [(error as Error).message] on a caught value: the cast does nothing
    at run time, so the property is read off whatever was thrown. *)
Definition read_message (error : Value) : Outcome Value :=
  if nullish error then Throw (new_Error (cannot_read error "message"))
  else Ok (opt_prop error "message").

(** What an executor resolves to: [{ output?, nextStepId? }]. *)
Record StepResult : Type := {
  output : option Obj;
  nextStepId : option string
}.

(** The engine's own observable actions. *)
Inductive Event : Type :=
| EvInvoke (stepId : string) (threw : option Value)
| EvBackoff (millis : Z).

Record CreateOrderRequest : Type := {
  cor_provider : Value;
  cor_from : Value;
  cor_to : Value;
  cor_items : Value;
  cor_metadata : Value
}.

Record CreateOrderResponse : Type := {
  cr_order : Value;
  cr_trackingNumber : Value;
  cr_estimatedDelivery : Value
}.

Record QueryOrderRequest : Type := {
  qor_orderId : Value;
  qor_provider : Value
}.

Record QueryOrderResponse : Type := {
  qr_order : Value;
  qr_trackingEvents : Value
}.

Record WebhookPayload : Type := {
  wp_event : Value;
  wp_data : Value;
  wp_orderId : Value;
  wp_provider : Value;
  wp_timestamp : Z
}.

Section Engine.

(** The world outside the engine: [now] reads its clock ([new Date()]),
    [setTimeout d w] is the world once a timer of [d] has elapsed. *)
Context {W : Type} (now : W → Z) (setTimeout : Value → W → W).

(** The part of [IProvider] the executors call; [checkFreeShipping] is
    optional. *)
Record IProvider : Type := {
  createOrder : CreateOrderRequest → W → Outcome CreateOrderResponse * W;
  queryOrder : QueryOrderRequest → W → Outcome QueryOrderResponse * W;
  checkFreeShipping : option (Value → W → Outcome Value * W)
}.

Definition IStepExecutor : Type :=
  WorkflowStepDefinition → Obj → gmap string IProvider → W →
  Outcome StepResult * W.

Definition WebhookCaller : Type := Value → WebhookPayload → W → Outcome unit * W.

(** [providers.get(providerId)]: the table is keyed by strings. *)
Definition providers_get (providers : gmap string IProvider) (providerId : Value)
  : option IProvider :=
  match providerId with
  | VStr s => providers !! s
  | _ => None
  end.

(** ** Step executors *)

Definition CreateOrderStepExecutor : IStepExecutor := λ step context providers w,
  let providerId := js_or (of_opt_string (sd_provider step)) (prop context "provider") in
  if negb (truthy providerId) then
    (Throw (new_Error "Provider is required for create_order step"), w)
  else
    match providers_get providers providerId with
    | None => (Throw (new_Error ("Provider " +:+ js_to_string providerId +:+ " not found")), w)
    | Some provider =>
        let request := {|
          cor_provider := providerId;
          cor_from := opt_prop (prop context "input") "from";
          cor_to := opt_prop (prop context "input") "to";
          cor_items := opt_prop (prop context "input") "items";
          cor_metadata := opt_prop (prop context "input") "metadata" |} in
        match createOrder provider request w with
        | (Throw error, w') => (Throw error, w')
        | (Ok response, w') =>
            (Ok {| output := Some (list_to_map
                     [("order", cr_order response);
                      ("trackingNumber", cr_trackingNumber response);
                      ("estimatedDelivery", cr_estimatedDelivery response)]);
                   nextStepId := onSuccess step |}, w')
        end
    end.

Definition QueryOrderStepExecutor : IStepExecutor := λ step context providers w,
  let providerId := js_or (of_opt_string (sd_provider step)) (prop context "provider") in
  if negb (truthy providerId) then
    (Throw (new_Error "Provider is required for query_order step"), w)
  else if negb (truthy (prop context "orderId")) then
    (Throw (new_Error "Order ID is required for query_order step"), w)
  else
    match providers_get providers providerId with
    | None => (Throw (new_Error ("Provider " +:+ js_to_string providerId +:+ " not found")), w)
    | Some provider =>
        let request := {|
          qor_orderId := prop context "orderId";
          qor_provider := providerId |} in
        match queryOrder provider request w with
        | (Throw error, w') => (Throw error, w')
        | (Ok response, w') =>
            (Ok {| output := Some (list_to_map
                     [("order", qr_order response);
                      ("trackingEvents", qr_trackingEvents response)]);
                   nextStepId := onSuccess step |}, w')
        end
    end.

Definition CheckFreeShippingStepExecutor : IStepExecutor := λ step context providers w,
  let providerId := js_or (of_opt_string (sd_provider step)) (prop context "provider") in
  if negb (truthy providerId) then
    (Throw (new_Error "Provider is required for check_free_shipping step"), w)
  else if negb (truthy (prop context "orderId")) then
    (Throw (new_Error "Order ID is required for check_free_shipping step"), w)
  else
    match providers_get providers providerId with
    | None => (Throw (new_Error ("Provider " +:+ js_to_string providerId +:+ " not found")), w)
    | Some provider =>
        match checkFreeShipping provider with
        | None =>
            (Ok {| output := Some {[ "notification" := VNull ]};
                   nextStepId := onFailure step |}, w)
        | Some check =>
            match check (prop context "orderId") w with
            | (Throw error, w') => (Throw error, w')
            | (Ok notification, w') =>
                (Ok {| output := Some {[ "notification" := notification ]};
                       nextStepId := if truthy notification
                                     then onSuccess step else onFailure step |}, w')
            end
        end
    end.

(** [step.config?.k] *)
Definition config_prop (step : WorkflowStepDefinition) (k : string) : Value :=
  match sd_config step with
  | Some c => prop c k
  | None => VUndefined
  end.

(** [step.config?.url || context.input?.webhookUrl] *)
Definition webhook_url (step : WorkflowStepDefinition) (context : Obj) : Value :=
  js_or (config_prop step "url") (opt_prop (prop context "input") "webhookUrl").

Definition webhook_payload (step : WorkflowStepDefinition) (context : Obj) (w : W)
  : WebhookPayload :=
  {| wp_event := config_prop step "event";
     wp_data := prop context "input";
     wp_orderId := prop context "orderId";
     wp_provider := prop context "provider";
     wp_timestamp := now w |}.

Definition WebhookStepExecutor (webhookCaller : WebhookCaller) : IStepExecutor :=
  λ step context providers w,
  let webhookUrl := webhook_url step context in
  if negb (truthy webhookUrl) then
    (Throw (new_Error "Webhook URL is required for webhook step"), w)
  else
    let payload := webhook_payload step context w in
    match webhookCaller webhookUrl payload w with
    | (Ok _, w') =>
        (Ok {| output := Some {[ "success" := VBool true ]};
               nextStepId := onSuccess step |}, w')
    | (Throw error, w') =>
        match read_message error with
        | Ok message =>
            (Ok {| output := Some (list_to_map
                     [("success", VBool false); ("error", message)]);
                   nextStepId := onFailure step |}, w')
        | Throw e => (Throw e, w')
        end
    end.

Definition DelayStepExecutor : IStepExecutor := λ step context providers w,
  let delay := js_or (config_prop step "delay") (VNum 1000) in
  (Ok {| output := Some {[ "delayed" := delay ]};
         nextStepId := onSuccess step |}, setTimeout delay w).

(** ** The engine *)

(** The mutable state a run acts on: the object heap, the outside world
    and the log of the engine's own actions. *)
Record State : Type := {
  heap : list Obj;
  world : W;
  log : list Event
}.

Definition set_world (σ : State) (w : W) : State :=
  {| heap := heap σ; world := w; log := log σ |}.

Definition emit (σ : State) (e : Event) : State :=
  {| heap := heap σ; world := world σ; log := log σ ++ [e] |}.

(** [{ ...o }]: a fresh object with the same keys. *)
Definition alloc (σ : State) (o : Obj) : loc * State :=
  (length (heap σ), {| heap := heap σ ++ [o]; world := world σ; log := log σ |}).

(** Reading the object behind a reference. *)
Definition deref (σ : State) (l : loc) : Obj := default ∅ (heap σ !! l).

(** [Object.assign(l, source)] on the object behind [l]. *)
Definition assign_into (σ : State) (l : loc) (source : Obj) : State :=
  {| heap := <[ l := object_assign (deref σ l) source ]> (heap σ);
     world := world σ; log := log σ |}.

Record WorkflowEngine : Type := {
  stepExecutors : gmap string IStepExecutor;
  webhookCaller : WebhookCaller
}.

Definition registerExecutor (this : WorkflowEngine) (stepType : string)
    (executor : IStepExecutor) : WorkflowEngine :=
  {| stepExecutors := <[ stepType := executor ]> (stepExecutors this);
     webhookCaller := webhookCaller this |}.

Definition registerDefaultExecutors (this : WorkflowEngine) : WorkflowEngine :=
  let this := registerExecutor this "create_order" CreateOrderStepExecutor in
  let this := registerExecutor this "query_order" QueryOrderStepExecutor in
  let this := registerExecutor this "check_free_shipping" CheckFreeShippingStepExecutor in
  let this := registerExecutor this "webhook" (WebhookStepExecutor (webhookCaller this)) in
  registerExecutor this "delay" DelayStepExecutor.

(** The constructor. *)
Definition newWorkflowEngine (webhookCaller : WebhookCaller) : WorkflowEngine :=
  registerDefaultExecutors {| stepExecutors := ∅; webhookCaller := webhookCaller |}.

(** [n || d] on an optional number: [undefined] and [0] give [d]. *)
Definition num_or (n : option Z) (d : Z) : Z :=
  match n with
  | Some n => if n =? 0 then d else n
  | None => d
  end.

Definition step_succeeded (step : WorkflowStep) (out : option Obj) (t : Z) : WorkflowStep :=
  {| ws_id := ws_id step; ws_name := ws_name step; ws_status := SUCCESS;
     ws_provider := ws_provider step; ws_input := ws_input step;
     ws_output := out; ws_error := ws_error step;
     ws_startedAt := ws_startedAt step; ws_completedAt := Some t |}.

Definition step_failed (step : WorkflowStep) (message : Value) (t : Z) : WorkflowStep :=
  {| ws_id := ws_id step; ws_name := ws_name step; ws_status := FAILED;
     ws_provider := ws_provider step; ws_input := ws_input step;
     ws_output := ws_output step; ws_error := message;
     ws_startedAt := ws_startedAt step; ws_completedAt := Some t |}.

Section RetryLoop.

Context (executor : IStepExecutor) (stepDef : WorkflowStepDefinition)
        (context : loc) (providers : gmap string IProvider)
        (maxAttempts retryDelay : Z).

(** The [while (attempts < maxAttempts)] loop of [executeStep].  It ends
    with the step record ([break], or the loop condition turning false) or
    with the error rethrown after the last attempt. *)
Equations? retryLoop (attempts : Z) (step : WorkflowStep) (σ : State)
  : Outcome WorkflowStep * State
  by wf (Z.to_nat (maxAttempts - attempts)) lt :=
retryLoop attempts step σ with decide (attempts < maxAttempts) := {
  | right _ => (Ok step, σ)
  | left _ =>
      let r := executor stepDef (deref σ context) providers (world σ) in
      match r.1 with
      | Ok result =>
          let σ1 := emit (set_world σ r.2) (EvInvoke (sd_id stepDef) None) in
          (Ok (step_succeeded step (output result) (now (world σ1))), σ1)
      | Throw error =>
          let σ1 := emit (set_world σ r.2) (EvInvoke (sd_id stepDef) (Some error)) in
          if decide (maxAttempts <= attempts + 1) then (Throw error, σ1)
          else
            retryLoop (attempts + 1) step
              (if decide (0 < retryDelay)
               then emit (set_world σ1 (setTimeout (VNum retryDelay) (world σ1)))
                         (EvBackoff retryDelay)
               else σ1)
      end }.
Proof. lia. Qed.

End RetryLoop.

(** The record [executeStep] starts from; [input] is the context object
    itself, not a copy of it. *)
Definition new_step (stepDef : WorkflowStepDefinition) (context : loc) (t : Z)
  : WorkflowStep :=
  {| ws_id := sd_id stepDef; ws_name := sd_name stepDef; ws_status := RUNNING;
     ws_provider := sd_provider stepDef; ws_input := Some context;
     ws_output := None; ws_error := VUndefined;
     ws_startedAt := Some t; ws_completedAt := None |}.

(** The outer [catch] block of [executeStep]: the step is marked FAILED
    with the message read off the caught value.  Reading it throws when
    the value is [null] or [undefined]; the method then rejects and the
    record is lost. *)
Definition step_caught (step : WorkflowStep) (error : Value) (σ : State)
  : Outcome WorkflowStep * State :=
  match read_message error with
  | Ok message => (Ok (step_failed step message (now (world σ))), σ)
  | Throw e => (Throw e, σ)
  end.

(** [executeStep]: build the record, resolve the executor, run the retry
    loop; whatever is thrown inside is caught by [step_caught].  (The
    method's fourth parameter, the execution, is not used by its body and
    is left out.) *)
Definition executeStep (this : WorkflowEngine) (stepDef : WorkflowStepDefinition)
    (context : loc) (providers : gmap string IProvider) (σ : State)
  : Outcome WorkflowStep * State :=
  let step := new_step stepDef context (now (world σ)) in
  let tried :=
    match stepExecutors this !! sd_type stepDef with
    | None =>
        (Throw (new_Error ("No executor found for step type: " +:+ sd_type stepDef)), σ)
    | Some executor =>
        let maxAttempts := num_or (maxAttempts <$> retry stepDef) 1 in
        let retryDelay := num_or (delay <$> retry stepDef) 0 in
        retryLoop executor stepDef context providers maxAttempts retryDelay 0 step σ
    end in
  match tried with
  | (Ok step', σ') => (Ok step', σ')
  | (Throw error, σ') => step_caught step error σ'
  end.

Definition push_step (execution : WorkflowExecution) (step : WorkflowStep)
  : WorkflowExecution :=
  {| we_id := we_id execution; workflowId := workflowId execution;
     orderId := orderId execution; we_status := we_status execution;
     we_steps := we_steps execution ++ [step];
     we_startedAt := we_startedAt execution;
     we_completedAt := we_completedAt execution; we_error := we_error execution |}.

(** [execution.status = FAILED; execution.error = error;
     execution.completedAt = new Date()] *)
Definition fail_execution (execution : WorkflowExecution) (error : Value)
    (t : Z) : WorkflowExecution :=
  {| we_id := we_id execution; workflowId := workflowId execution;
     orderId := orderId execution; we_status := FAILED;
     we_steps := we_steps execution;
     we_startedAt := we_startedAt execution;
     we_completedAt := Some t; we_error := error |}.

(** The two statements after the loop of [executeWorkflowAsync]. *)
Definition finish_execution (execution : WorkflowExecution) (t : Z) : WorkflowExecution :=
  {| we_id := we_id execution; workflowId := workflowId execution;
     orderId := orderId execution;
     we_status := if decide (we_status execution = RUNNING) then SUCCESS
                  else we_status execution;
     we_steps := we_steps execution;
     we_startedAt := we_startedAt execution;
     we_completedAt := Some t; we_error := we_error execution |}.

(** [if (step.output) { Object.assign(context, step.output); }] *)
Definition merge_output (σ : State) (context : loc) (step : WorkflowStep) : State :=
  match ws_output step with
  | Some out => assign_into σ context out
  | None => σ
  end.

(** [workflow.steps.find((s) => s.id === currentStepId)] *)
Definition find_step (workflow : WorkflowDefinition) (currentStepId : string)
  : option WorkflowStepDefinition :=
  List.find (λ s, String.eqb (sd_id s) currentStepId) (steps workflow).

(** A walk either has left its loop, or (the step graph may be cyclic) is
    still about to visit [currentStepId] when the iterations granted to it
    are used up, or was ended by [executeStep] rejecting with [error]. *)
Inductive WalkResult : Type :=
| Finished (execution : WorkflowExecution) (σ : State)
| Suspended (currentStepId : string) (execution : WorkflowExecution) (σ : State)
| Rejected (error : Value) (execution : WorkflowExecution) (σ : State).

(** The [while (currentStepId)] loop of [executeWorkflowAsync]; [fuel]
    bounds the number of steps executed. *)
Fixpoint walk (this : WorkflowEngine) (workflow : WorkflowDefinition)
    (context : loc) (providers : gmap string IProvider)
    (fuel : nat) (currentStepId : option string)
    (execution : WorkflowExecution) (σ : State) : WalkResult :=
  match currentStepId with
  | None => Finished execution σ
  | Some current =>
      if negb (truthy (VStr current)) then Finished execution σ
      else
        match find_step workflow current with
        | None => Finished execution σ
        | Some stepDef =>
            match fuel with
            | O => Suspended current execution σ
            | S fuel' =>
                let r := executeStep this stepDef context providers σ in
                match r.1 with
                | Throw error => Rejected error execution r.2
                | Ok step =>
                    let execution1 := push_step execution step in
                    if decide (ws_status step = FAILED) then
                      Finished (fail_execution execution1 (ws_error step)
                                  (now (world r.2))) r.2
                    else
                      let σ2 := merge_output r.2 context step in
                      if decide (ws_status step = SUCCESS) then
                        walk this workflow context providers fuel' (onSuccess stepDef)
                          execution1 σ2
                      else if decide (ws_status step = FAILED) then
                        walk this workflow context providers fuel' (onFailure stepDef)
                          execution1 σ2
                      else Finished execution1 σ2
                end
            end
        end
  end.

(** [workflow.steps[0]?.id] *)
Definition first_step_id (workflow : WorkflowDefinition) : option string :=
  match steps workflow with
  | [] => None
  | s :: _ => Some (sd_id s)
  end.

Definition executeWorkflowAsync (this : WorkflowEngine) (fuel : nat)
    (workflow : WorkflowDefinition) (execution : WorkflowExecution)
    (initialContext : Obj) (providers : gmap string IProvider) (σ : State)
  : WalkResult :=
  let a := alloc σ initialContext in
  match walk this workflow a.1 providers fuel (first_step_id workflow) execution a.2 with
  | Finished execution' σ' =>
      Finished (finish_execution execution' (now (world σ'))) σ'
  | Suspended current execution' σ' => Suspended current execution' σ'
  | Rejected error execution' σ' => Rejected error execution' σ'
  end.

(** The record [execute] creates and hands to [executeWorkflowAsync]; the
    generated id is taken as an argument. *)
Definition newExecution (executionId : string) (workflow : WorkflowDefinition)
    (context : Obj) (σ : State) : WorkflowExecution :=
  {| we_id := executionId; workflowId := wf_id workflow;
     orderId := prop context "orderId"; we_status := RUNNING;
     we_steps := []; we_startedAt := now (world σ);
     we_completedAt := None; we_error := VUndefined |}.

(** [execution.status = FAILED], the first statement of the [catch]
    handler of [execute]. *)
Definition mark_failed (execution : WorkflowExecution) : WorkflowExecution :=
  {| we_id := we_id execution; workflowId := workflowId execution;
     orderId := orderId execution; we_status := FAILED;
     we_steps := we_steps execution;
     we_startedAt := we_startedAt execution;
     we_completedAt := we_completedAt execution; we_error := we_error execution |}.

(** The [catch] handler [execute] attaches to the walk: it marks the
    execution FAILED, then reads the message off what the walk rejected
    with and stamps the completion time.  (Were that value [null] or
    [undefined], the handler would throw after its first statement.) *)
Definition on_rejection (error : Value) (execution : WorkflowExecution) (σ : State)
  : WalkResult :=
  match read_message error with
  | Ok message => Finished (fail_execution execution message (now (world σ))) σ
  | Throw _ => Finished (mark_failed execution) σ
  end.

(** [execute]: the state the execution record reaches once the detached
    walk has settled, through its own last statements or through the
    [catch] handler. *)
Definition execute (this : WorkflowEngine) (fuel : nat) (executionId : string)
    (workflow : WorkflowDefinition) (context : Obj)
    (providers : gmap string IProvider) (σ : State) : WalkResult :=
  match executeWorkflowAsync this fuel workflow
          (newExecution executionId workflow context σ) context providers σ with
  | Rejected error execution' σ' => on_rejection error execution' σ'
  | settled => settled
  end.

End Engine.

Arguments Finished {W} execution σ.
Arguments Suspended {W} currentStepId execution σ.
Arguments Rejected {W} error execution σ.

(** ** Observations on a run *)

Definition result_execution {W} (r : WalkResult (W:=W)) : WorkflowExecution :=
  match r with
  | Finished e _ => e
  | Suspended _ e _ => e
  | Rejected _ e _ => e
  end.

Definition result_state {W} (r : WalkResult (W:=W)) : State (W:=W) :=
  match r with
  | Finished _ σ => σ
  | Suspended _ _ σ => σ
  | Rejected _ _ σ => σ
  end.

Definition result_steps {W} (r : WalkResult (W:=W)) : list WorkflowStep :=
  we_steps (result_execution r).

(** The outcome of every executor invocation of a log, in order:
    [None] for a call that returned, the thrown value for one that threw. *)
Fixpoint invocation_outcomes (events : list Event) : list (option Value) :=
  match events with
  | [] => []
  | EvInvoke _ o :: rest => o :: invocation_outcomes rest
  | EvBackoff _ :: rest => invocation_outcomes rest
  end.

(** Time spent in back-off since the last invocation, emitted at the next
    one. *)
Fixpoint waits_after (waited : Z) (events : list Event) : list Z :=
  match events with
  | [] => []
  | EvBackoff d :: rest => waits_after (waited + d) rest
  | EvInvoke _ _ :: rest => waited :: waits_after 0 rest
  end.

(** The back-off time between each two consecutive invocations. *)
Fixpoint waits_between (events : list Event) : list Z :=
  match events with
  | [] => []
  | EvBackoff _ :: rest => waits_between rest
  | EvInvoke _ _ :: rest => waits_after 0 rest
  end.

(** The log of a step whose every attempt throws: one invocation per
    thrown value, a back-off after each but the last when the delay is
    positive. *)
Fixpoint failing_events (stepId : string) (d : Z) (messages : list Value)
  : list Event :=
  match messages with
  | [] => []
  | m :: rest =>
      EvInvoke stepId (Some m) ::
      match rest with
      | [] => []
      | _ :: _ => (if decide (0 < d) then [EvBackoff d] else []) ++
                  failing_events stepId d rest
      end
  end.

(** A step that is attempted once and never waited for: what the engine
    is meant to do when the step declares no retry policy (one attempt by
    default, no delay by default). *)
Definition executeStep_once {W} (now : W → Z) (this : WorkflowEngine (W:=W))
    (stepDef : WorkflowStepDefinition) (context : loc)
    (providers : gmap string (IProvider (W:=W))) (σ : State (W:=W))
  : Outcome WorkflowStep * State (W:=W) :=
  let step := new_step stepDef context (now (world σ)) in
  match stepExecutors this !! sd_type stepDef with
  | None =>
      (Ok (step_failed step (VStr ("No executor found for step type: " +:+ sd_type stepDef))
             (now (world σ))), σ)
  | Some executor =>
      let r := executor stepDef (deref σ context) providers (world σ) in
      match r.1 with
      | Ok result =>
          let σ1 := emit (set_world σ r.2) (EvInvoke (sd_id stepDef) None) in
          (Ok (step_succeeded step (output result) (now (world σ1))), σ1)
      | Throw error =>
          let σ1 := emit (set_world σ r.2) (EvInvoke (sd_id stepDef) (Some error)) in
          step_caught now step error σ1
      end
  end.

(** The walk has no step to run: the id is unset or empty, or names no
    step of the definition. *)
Definition stops_at (workflow : WorkflowDefinition) (currentStepId : option string)
  : Prop :=
  match currentStepId with
  | None => True
  | Some current => truthy (VStr current) = false ∨ find_step workflow current = None
  end.

(** ** Vocabulary of the statements *)

(** A finalized step record. *)
Definition terminal (step : WorkflowStep) : Prop :=
  (ws_status step = SUCCESS ∨ ws_status step = FAILED) ∧
  is_Some (ws_completedAt step).

(** The shape the data model gives a retry policy: at least one attempt. *)
Definition retry_well_formed (stepDef : WorkflowStepDefinition) : Prop :=
  ∀ r, retry stepDef = Some r → 1 ≤ maxAttempts r.

(** The record belongs to a step of the definition. *)
Definition recorded (workflow : WorkflowDefinition) (step : WorkflowStep) : Prop :=
  is_Some (find_step workflow (ws_id step)).

(** [s'] was reached from [s] along the success edge of [s]. *)
Definition follows (workflow : WorkflowDefinition) (s s' : WorkflowStep) : Prop :=
  ∃ stepDef, find_step workflow (ws_id s) = Some stepDef ∧
             onSuccess stepDef = Some (ws_id s').

Definition chained (workflow : WorkflowDefinition) (records : list WorkflowStep)
  : Prop :=
  ∀ i s s', records !! i = Some s → records !! S i = Some s' → follows workflow s s'.

(** What holds of the execution record each time the loop of the walk is
    about to test [currentStepId]. *)
Definition walking (workflow : WorkflowDefinition) (currentStepId : option string)
    (execution : WorkflowExecution) : Prop :=
  we_status execution = RUNNING ∧
  we_error execution = VUndefined ∧
  Forall (λ s, ws_status s = SUCCESS ∧ recorded workflow s) (we_steps execution) ∧
  chained workflow (we_steps execution) ∧
  (∀ s, last (we_steps execution) = Some s →
        ∃ stepDef, find_step workflow (ws_id s) = Some stepDef ∧
                   onSuccess stepDef = currentStepId).

(** The record ends with a failed step, and the execution says so. *)
Definition ended_in_failure {W} (now : W → Z) (execution : WorkflowExecution)
    (σ : State (W:=W)) : Prop :=
  ∃ earlier failed,
    we_steps execution = earlier ++ [failed] ∧
    Forall (λ s, ws_status s = SUCCESS) earlier ∧
    ws_status failed = FAILED ∧
    we_status execution = FAILED ∧
    we_error execution = ws_error failed ∧
    we_completedAt execution = Some (now (world σ)).

(** What [executeStep] rejects with: the TypeError of reading the
    message of a thrown [null] or [undefined]. *)
Definition message_unreadable (error : Value) : Prop :=
  ∃ thrown, nullish thrown = true ∧ error = new_Error (cannot_read thrown "message").

(** The walk was ended by [executeStep] rejecting at a step the walk had
    reached, and the [catch] handler of [execute] has run: every record
    succeeded, the execution is FAILED and carries the message of the
    rejection. *)
Definition ended_in_rejection {W} (now : W → Z) (workflow : WorkflowDefinition)
    (execution : WorkflowExecution) (σ : State (W:=W)) : Prop :=
  we_status execution = FAILED ∧
  Forall (λ s, ws_status s = SUCCESS) (we_steps execution) ∧
  (∃ thrown, nullish thrown = true ∧
             we_error execution = VStr (cannot_read thrown "message")) ∧
  we_completedAt execution = Some (now (world σ)) ∧
  ∃ c, truthy (VStr c) = true ∧ is_Some (find_step workflow c) ∧
       ∀ s, last (we_steps execution) = Some s →
            ∃ stepDef, find_step workflow (ws_id s) = Some stepDef ∧
                       onSuccess stepDef = Some c.

(** What holds of the result of the loop, however many iterations it was
    granted. *)
Definition walk_outcome {W} (now : W → Z) (workflow : WorkflowDefinition)
    (r : WalkResult (W:=W)) : Prop :=
  match r with
  | Suspended current execution σ =>
      walking workflow (Some current) execution ∧
      truthy (VStr current) = true ∧
      is_Some (find_step workflow current)
  | Finished execution σ =>
      Forall (recorded workflow) (we_steps execution) ∧
      chained workflow (we_steps execution) ∧
      ((we_status execution = RUNNING ∧ we_error execution = VUndefined ∧
        Forall (λ s, ws_status s ≠ FAILED) (we_steps execution)) ∨
       ended_in_failure now execution σ)
  | Rejected error execution σ =>
      message_unreadable error ∧
      ∃ current, walking workflow (Some current) execution ∧
                 truthy (VStr current) = true ∧
                 is_Some (find_step workflow current)
  end.

(** The same for a whole run: the statements after the loop turn RUNNING
    into SUCCESS and stamp the completion time. *)
Definition run_outcome {W} (now : W → Z) (workflow : WorkflowDefinition)
    (r : WalkResult (W:=W)) : Prop :=
  match r with
  | Suspended current execution σ =>
      walking workflow (Some current) execution ∧
      truthy (VStr current) = true ∧
      is_Some (find_step workflow current)
  | Finished execution σ =>
      Forall (recorded workflow) (we_steps execution) ∧
      chained workflow (we_steps execution) ∧
      we_completedAt execution = Some (now (world σ)) ∧
      ((we_status execution = SUCCESS ∧ we_error execution = VUndefined ∧
        Forall (λ s, ws_status s ≠ FAILED) (we_steps execution)) ∨
       ended_in_failure now execution σ ∨
       ended_in_rejection now workflow execution σ)
  | Rejected _ _ _ => False
  end.

(** The context obtained from [initial] by assigning, in order, the output
    of every record that has one. *)
Definition merged_context (initial : Obj) (records : list WorkflowStep) : Obj :=
  foldl (λ c s, match ws_output s with
                | Some out => object_assign c out
                | None => c
                end) initial records.

(** Two executor results that differ at most in [nextStepId]. *)
Definition same_up_to_hint {W} (r1 r2 : Outcome StepResult * W) : Prop :=
  r1.2 = r2.2 ∧
  match r1.1, r2.1 with
  | Ok a, Ok b => output a = output b
  | Throw e1, Throw e2 => e1 = e2
  | _, _ => False
  end.

(** Two engines that register executors for the same step types, with
    results that differ at most in [nextStepId]. *)
Definition engines_differ_only_in_hints {W} (this1 this2 : WorkflowEngine (W:=W))
  : Prop :=
  ∀ stepType,
    match stepExecutors this1 !! stepType, stepExecutors this2 !! stepType with
    | Some e1, Some e2 => ∀ sd c p w, same_up_to_hint (e1 sd c p w) (e2 sd c p w)
    | None, None => True
    | _, _ => False
    end.

(** An executor made to return no [nextStepId] at all. *)
Definition forget_hint {W} (executor : IStepExecutor (W:=W)) : IStepExecutor (W:=W) :=
  λ sd c p w,
  let r := executor sd c p w in
  (match r.1 with
   | Ok result => Ok {| output := output result; nextStepId := None |}
   | Throw error => Throw error
   end, r.2).

Definition forget_hints {W} (this : WorkflowEngine (W:=W)) : WorkflowEngine (W:=W) :=
  {| stepExecutors := forget_hint <$> stepExecutors this;
     webhookCaller := webhookCaller this |}.

(** The step at [current] returns its record, and the walk goes on from
    [next]: the rest of the walk is the walk from [next], on the record
    extended by the step and the context merged with its output. *)
Definition continues_at {W} (now : W → Z) (setTimeout : Value → W → W)
    (this : WorkflowEngine (W:=W)) (workflow : WorkflowDefinition) (context : loc)
    (providers : gmap string (IProvider (W:=W)))
    (current : string) (stepDef : WorkflowStepDefinition) (next : option string)
    (execution : WorkflowExecution) (σ : State (W:=W)) : Prop :=
  ∃ step σ1,
    executeStep now setTimeout this stepDef context providers σ = (Ok step, σ1) ∧
    ∀ fuel,
      walk now setTimeout this workflow context providers (S fuel) (Some current)
        execution σ
      = walk now setTimeout this workflow context providers fuel next
          (push_step execution step) (merge_output σ1 context step).

(** The provider id of the step resolves to a provider of the table, the
    context has an order id, and the provider has no [checkFreeShipping]. *)
Definition free_shipping_unsupported {W} (stepDef : WorkflowStepDefinition)
    (contextObj : Obj) (providers : gmap string (IProvider (W:=W))) : Prop :=
  let providerId := js_or (of_opt_string (sd_provider stepDef))
                          (prop contextObj "provider") in
  truthy providerId = true ∧
  truthy (prop contextObj "orderId") = true ∧
  ∃ provider, providers_get providers providerId = Some provider ∧
              checkFreeShipping provider = None.

(** The step has a webhook URL and the delivery to it throws [error]. *)
Definition delivery_fails {W} (now : W → Z) (this : WorkflowEngine (W:=W))
    (stepDef : WorkflowStepDefinition) (contextObj : Obj) (w : W)
    (error : Value) : Prop :=
  truthy (webhook_url stepDef contextObj) = true ∧
  (webhookCaller this (webhook_url stepDef contextObj)
     (webhook_payload now stepDef contextObj w) w).1 = Throw error.

(** The world after [n] calls with a pause between each two. *)
Fixpoint attempts_world {W} (call pause : W → W) (n : nat) (w : W) : W :=
  match n with
  | O => w
  | S n' =>
      match n' with
      | O => call w
      | S _ => attempts_world call pause n' (pause (call w))
      end
  end.

(** What the retry loop does between two attempts: a timer of [d]
    milliseconds when [d] is positive, nothing otherwise. *)
Definition back_off {W} (setTimeout : Value → W → W) (d : Z) (w : W) : W :=
  if decide (0 < d) then setTimeout (VNum d) w else w.

(** A retry policy, if any, that does not disable the step: a negative
    [maxAttempts] would keep the retry loop from running at all. *)
Definition retry_enabled (stepDef : WorkflowStepDefinition) : Prop :=
  ∀ r, retry stepDef = Some r → 0 ≤ maxAttempts r.

(** ** A concrete world, engine and workflows *)

Module Demo.

(** A world with a clock in milliseconds and a count of the webhook
    deliveries attempted so far. *)
Record World : Type := { clock : Z; deliveries : nat }.

Definition now (w : World) : Z := clock w.

Definition setTimeout (d : Value) (w : World) : World :=
  {| clock := clock w + match d with VNum n => Z.max 0 n | _ => 0 end;
     deliveries := deliveries w |}.

(** The first delivery is refused, the later ones go through. *)
Definition flaky_caller : WebhookCaller (W:=World) := λ url payload w,
  let w' := {| clock := clock w + 1; deliveries := S (deliveries w) |} in
  match deliveries w with
  | O => (Throw (new_Error "connection refused"), w')
  | S _ => (Ok tt, w')
  end.

Definition engine : WorkflowEngine (W:=World) :=
  newWorkflowEngine now setTimeout flaky_caller.

(** A courier without the optional free-shipping check. *)
Definition plain_courier : IProvider (W:=World) :=
  {| createOrder := λ request w,
       (Ok {| cr_order := VObj [("id", VStr "o-1")];
              cr_trackingNumber := VStr "T1";
              cr_estimatedDelivery := VUndefined |}, w);
     queryOrder := λ request w,
       (Ok {| qr_order := VObj [("id", VStr "o-1")];
              qr_trackingEvents := VUndefined |}, w);
     checkFreeShipping := None |}.

Definition couriers : gmap string (IProvider (W:=World)) :=
  {[ "yto" := plain_courier ]}.

Definition start : State (W:=World) :=
  {| heap := []; world := {| clock := 0; deliveries := 0 |}; log := [] |}.

Definition step_def (id type : string) (config : option Obj)
    (success failure : option string) (policy : option RetryPolicy)
  : WorkflowStepDefinition :=
  {| sd_id := id; sd_name := id; sd_type := type; sd_provider := None;
     sd_config := config; onSuccess := success; onFailure := failure;
     retry := policy |}.

Definition workflow_of (defs : list WorkflowStepDefinition) : WorkflowDefinition :=
  {| wf_id := "demo"; wf_name := "demo"; steps := defs; trigger := "manual" |}.

(** Custom executors, registered by type name. *)
Definition always_throws : IStepExecutor (W:=World) := λ sd c p w,
  (Throw (new_Error "unavailable"),
   {| clock := clock w + 1; deliveries := deliveries w |}).

Definition writes_x (n : Z) : IStepExecutor (W:=World) := λ sd c p w,
  (Ok {| output := Some {[ "x" := VNum n ]}; nextStepId := onFailure sd |}, w).

Definition custom_engine : WorkflowEngine (W:=World) :=
  registerExecutor
    (registerExecutor
       (registerExecutor engine "always_throws" always_throws)
       "write_1" (writes_x 1))
    "write_2" (writes_x 2).

(** A step retried three times, 50 ms apart. *)
Definition retried : WorkflowStepDefinition :=
  step_def "r" "always_throws" None None None
    (Some {| maxAttempts := 3; delay := 50 |}).

(** A step with [maxAttempts] 0. *)
Definition zero_attempts : WorkflowStepDefinition :=
  step_def "z" "always_throws" None None None
    (Some {| maxAttempts := 0; delay := 50 |}).

(** Step A writes [x = 1], step B writes [x = 2]. *)
Definition write_twice : WorkflowDefinition :=
  workflow_of [ step_def "A" "write_1" None (Some "B") None None;
                step_def "B" "write_2" None None None None ].

Definition x_is_zero : Obj := {[ "x" := VNum 0; "y" := VStr "kept" ]}.

(** A successful step whose success edge names no step, after which a
    failure edge is present but unused. *)
Definition dangling : WorkflowDefinition :=
  workflow_of [ step_def "A" "write_1" None (Some "nowhere") (Some "B") None;
                step_def "B" "write_2" None None None None ].

(** A failing first step with both edges set. *)
Definition failing : WorkflowDefinition :=
  workflow_of [ step_def "r" "always_throws" None (Some "B") (Some "B")
                  (Some {| maxAttempts := 2; delay := 0 |});
                step_def "B" "write_2" None None None None ].

(** A free-shipping check whose two edges lead to different steps. *)
Definition check_step : WorkflowStepDefinition :=
  step_def "check" "check_free_shipping" None (Some "found") (Some "missing") None.

Definition free_shipping : WorkflowDefinition :=
  workflow_of [ check_step;
                step_def "found" "delay" None None None None;
                step_def "missing" "delay" None None None None ].

Definition order_context : Obj :=
  {[ "provider" := VStr "yto"; "orderId" := VStr "o-1" ]}.

(** Two webhook steps; the first delivery is refused, the second one goes
    through. *)
Definition hook_step : WorkflowStepDefinition :=
  step_def "s2" "webhook" (Some {[ "url" := VStr "https://hooks.example/a" ]})
    (Some "s3") (Some "s4") (Some {| maxAttempts := 3; delay := 10 |}).

Definition webhooks : WorkflowDefinition :=
  workflow_of [ hook_step;
                step_def "s3" "webhook"
                  (Some {[ "url" := VStr "https://hooks.example/b" ]})
                  None None None;
                step_def "s4" "delay" None None None None ].

Definition run (fuel : nat) (this : WorkflowEngine (W:=World))
    (workflow : WorkflowDefinition) (context : Obj) : WalkResult (W:=World) :=
  execute now setTimeout this fuel "exec-1" workflow context couriers start.

(** The state and the record a run starts its loop with. *)
Definition loop_state (context : Obj) : State (W:=World) := (alloc start context).2.

Definition loop_execution (workflow : WorkflowDefinition) (context : Obj)
  : WorkflowExecution :=
  newExecution now "exec-1" workflow context start.

End Demo.

(** ** Further vocabulary: attempts, edges, termination *)

(** The log of the attempts of one step, given the outcome of each: an
    invocation per outcome, and a back-off between each two when the
    delay is positive. *)
Fixpoint attempt_events (stepId : string) (d : Z) (outcomes : list (option Value))
  : list Event :=
  match outcomes with
  | [] => []
  | o :: rest =>
      EvInvoke stepId o ::
      match rest with
      | [] => []
      | _ :: _ => (if decide (0 < d) then [EvBackoff d] else []) ++
                  attempt_events stepId d rest
      end
  end.

(** Two step definitions that differ at most in their [onFailure] edge. *)
Definition same_but_onFailure (sd1 sd2 : WorkflowStepDefinition) : Prop :=
  sd_id sd1 = sd_id sd2 ∧ sd_name sd1 = sd_name sd2 ∧ sd_type sd1 = sd_type sd2 ∧
  sd_provider sd1 = sd_provider sd2 ∧ sd_config sd1 = sd_config sd2 ∧
  onSuccess sd1 = onSuccess sd2 ∧ retry sd1 = retry sd2.

(** An engine none of whose executors lets the [onFailure] edge of the
    step decide anything but the hint it returns. *)
Definition blind_to_onFailure {W} (this : WorkflowEngine (W:=W)) : Prop :=
  ∀ stepType executor sd1 sd2 c p w,
    stepExecutors this !! stepType = Some executor →
    same_but_onFailure sd1 sd2 →
    same_up_to_hint (executor sd1 c p w) (executor sd2 c p w).

(** Every success edge that resolves leads to a step placed later in the
    definition. *)
Definition forward_only (workflow : WorkflowDefinition) : Prop :=
  ∀ i stepDef target next,
    steps workflow !! i = Some stepDef →
    onSuccess stepDef = Some target →
    find_step workflow target = Some next →
    ∃ j, (i < j)%nat ∧ steps workflow !! j = Some next.

(** What a step record may look like once [executeStep] has returned it. *)
Definition well_formed_record (workflow : WorkflowDefinition) (step : WorkflowStep)
  : Prop :=
  (∃ stepDef, find_step workflow (ws_id step) = Some stepDef ∧
              ws_name step = sd_name stepDef ∧
              ws_provider step = sd_provider stepDef) ∧
  is_Some (ws_startedAt step) ∧
  match ws_status step with
  | SUCCESS => ws_error step = VUndefined ∧ is_Some (ws_completedAt step)
  | FAILED => ws_output step = None ∧ is_Some (ws_completedAt step)
  | RUNNING => ws_error step = VUndefined ∧ ws_output step = None ∧
               ws_completedAt step = None
  | PENDING | SKIPPED => False
  end.


(** ** The provider registry (providers package) *)

Module ProviderRegistry.
Section Registry.

Context {W : Type}.

(** A provider as the registry sees it: its id, [initialize], the
    optional [stopFreeShippingListener], and the operations the step
    executors call. *)
Record Provider : Type := {
  p_id : string;
  p_initialize : Obj → W → Outcome unit * W;
  p_stopFreeShippingListener : option (W → W);
  p_operations : IProvider (W:=W)
}.

(** The two maps of the class.  [providers] keeps its entries in
    insertion order, which [getAll] exposes. *)
Record t : Type := {
  providers : list (string * Provider);
  initializedProviders : gmap string Obj
}.

Definition empty : t := {| providers := []; initializedProviders := ∅ |}.

(** [Map.prototype.get] on the entries of a map. *)
Fixpoint entries_get (entries : list (string * Provider)) (key : string)
  : option Provider :=
  match entries with
  | [] => None
  | (k, v) :: rest => if String.eqb k key then Some v else entries_get rest key
  end.

(** [Map.prototype.delete] *)
Definition entries_delete (entries : list (string * Provider)) (key : string)
  : list (string * Provider) :=
  filter (λ e, e.1 ≠ key) entries.

Definition get (this : t) (providerId : string) : option Provider :=
  entries_get (providers this) providerId.

Definition register (this : t) (provider : Provider) : Outcome t :=
  match get this (p_id provider) with
  | Some _ =>
      Throw (new_Error ("Provider " +:+ p_id provider +:+ " is already registered"))
  | None =>
      Ok {| providers := providers this ++ [(p_id provider, provider)];
            initializedProviders := initializedProviders this |}
  end.

Definition getAll (this : t) : list Provider := snd <$> providers this.

Definition initializeProvider (this : t) (providerId : string) (config : Obj) (w : W)
  : Outcome t * W :=
  match get this providerId with
  | None => (Throw (new_Error ("Provider " +:+ providerId +:+ " is not registered")), w)
  | Some provider =>
      match p_initialize provider config w with
      | (Throw error, w') => (Throw error, w')
      | (Ok _, w') =>
          (Ok {| providers := providers this;
                 initializedProviders :=
                   <[ providerId := config ]> (initializedProviders this) |}, w')
      end
  end.

Definition isInitialized (this : t) (providerId : string) : bool :=
  bool_decide (is_Some (initializedProviders this !! providerId)).

Definition getInitialized (this : t) (providerId : string) : option Provider :=
  if negb (isInitialized this providerId) then None else get this providerId.

(** [provider.stopFreeShippingListener?.()] *)
Definition stop_listener (provider : Provider) (w : W) : W :=
  match p_stopFreeShippingListener provider with
  | Some stop => stop w
  | None => w
  end.

Definition unregister (this : t) (providerId : string) (w : W) : t * W :=
  let w' := match get this providerId with
            | Some provider => stop_listener provider w
            | None => w
            end in
  ({| providers := entries_delete (providers this) providerId;
      initializedProviders := delete providerId (initializedProviders this) |}, w').

Definition clear (this : t) (w : W) : t * W :=
  (empty, foldl (λ w provider, stop_listener provider w) w (getAll this)).

(** The provider table [OneShipService.createOrder] hands to the engine:
    every registered provider that is initialized, under its id. *)
Definition initialized_table (this : t) : gmap string (IProvider (W:=W)) :=
  foldl (λ table provider,
           if isInitialized this (p_id provider)
           then <[ p_id provider := p_operations provider ]> table
           else table)
        ∅ (getAll this).

(** What every registry built with the methods above satisfies: no id is
    registered twice, each provider sits under its own id, and only
    registered providers are initialized. *)
Definition consistent (this : t) : Prop :=
  NoDup (fst <$> providers this) ∧
  Forall (λ e, e.1 = p_id e.2) (providers this) ∧
  ∀ k, is_Some (initializedProviders this !! k) → is_Some (get this k).

End Registry.
End ProviderRegistry.

(** ** The base provider (providers package) *)

Module BaseProvider.
Section Base.

Context {W : Type}.

(** The provider-specific part a subclass supplies. *)
Record Implementation : Type := {
  b_id : string;
  doCreateOrder : CreateOrderRequest → W → Outcome CreateOrderResponse * W;
  doQueryOrder : QueryOrderRequest → W → Outcome QueryOrderResponse * W;
  doCheckFreeShipping : option (Value → W → Outcome Value * W)
}.

(** [v.length] of a truthy value: the [length] property of an object
    (of an array, the number of its elements), the number of characters
    of a string. *)
Definition js_length (v : Value) : Value :=
  match v with
  | VStr s => VNum (Z.of_nat (String.length s))
  | VObj fields => assoc "length" fields
  | _ => VUndefined
  end.

(** [v === 0] *)
Definition is_zero (v : Value) : bool :=
  match v with
  | VNum n => n =? 0
  | _ => false
  end.

Definition validateCreateOrderRequest (request : CreateOrderRequest) : Outcome unit :=
  if negb (truthy (cor_from request)) || negb (truthy (cor_to request)) ||
     negb (truthy (cor_items request)) || is_zero (js_length (cor_items request))
  then Throw (new_Error "Invalid create order request: missing required fields")
  else if negb (truthy (opt_prop (cor_from request) "phone")) ||
          negb (truthy (opt_prop (cor_to request) "phone"))
  then Throw (new_Error "Invalid create order request: phone number is required")
  else Ok tt.

(** The methods below take [config], the value of [this.config]: [None]
    until [initialize] has stored a configuration. *)
Definition createOrder (config : option Obj) (impl : Implementation)
    (request : CreateOrderRequest) (w : W) : Outcome CreateOrderResponse * W :=
  match config with
  | None => (Throw (new_Error ("Provider " +:+ b_id impl +:+ " is not initialized")), w)
  | Some _ =>
      match validateCreateOrderRequest request with
      | Throw error => (Throw error, w)
      | Ok _ => doCreateOrder impl request w
      end
  end.

Definition queryOrder (config : option Obj) (impl : Implementation)
    (request : QueryOrderRequest) (w : W) : Outcome QueryOrderResponse * W :=
  match config with
  | None => (Throw (new_Error ("Provider " +:+ b_id impl +:+ " is not initialized")), w)
  | Some _ => doQueryOrder impl request w
  end.

Definition checkFreeShipping (config : option Obj) (impl : Implementation)
    (orderId : Value) (w : W) : Outcome Value * W :=
  match config with
  | None => (Ok VNull, w)
  | Some _ =>
      match doCheckFreeShipping impl with
      | Some check => check orderId w
      | None => (Ok VNull, w)
      end
  end.

(** A provider derived from the base class, as the executors see it.
    The base class defines [checkFreeShipping], so the method is always
    there. *)
Definition as_provider (config : option Obj) (impl : Implementation)
  : IProvider (W:=W) :=
  @Build_IProvider W (createOrder config impl) (queryOrder config impl)
    (Some (checkFreeShipping config impl)).

End Base.
End BaseProvider.

(** ** The default workflows and the service's use of them *)

Definition DEFAULT_CREATE_ORDER_WORKFLOW : WorkflowDefinition :=
  {| wf_id := "default-create-order";
     wf_name := "Default Create Order Workflow";
     trigger := "manual";
     steps := [
       {| sd_id := "step-1"; sd_name := "Create Order"; sd_type := "create_order";
          sd_provider := None; sd_config := Some ∅;
          onSuccess := None; onFailure := None; retry := None |};
       {| sd_id := "step-2"; sd_name := "Send Webhook"; sd_type := "webhook";
          sd_provider := None; sd_config := Some {[ "event" := VStr "order.created" ]};
          onSuccess := None; onFailure := Some "step-3"; retry := None |};
       {| sd_id := "step-3"; sd_name := "Handle Failure"; sd_type := "webhook";
          sd_provider := None; sd_config := Some {[ "event" := VStr "order.failed" ]};
          onSuccess := None; onFailure := None; retry := None |} ] |}.

Definition DEFAULT_FREE_SHIPPING_WORKFLOW : WorkflowDefinition :=
  {| wf_id := "default-free-shipping";
     wf_name := "Default Free Shipping Check Workflow";
     trigger := "free_shipping_detected";
     steps := [
       {| sd_id := "step-1"; sd_name := "Check Free Shipping";
          sd_type := "check_free_shipping";
          sd_provider := None; sd_config := Some ∅;
          onSuccess := None; onFailure := None; retry := None |};
       {| sd_id := "step-2"; sd_name := "Notify Webhook"; sd_type := "webhook";
          sd_provider := None;
          sd_config := Some {[ "event" := VStr "free_shipping.detected" ]};
          onSuccess := None; onFailure := None; retry := None |} ] |}.

(** The step [OneShipService.createOrder] puts in place of [step]: a
    webhook step gets the caller's URL, when one is given, written into
    its configuration. *)
Definition with_webhook_url (webhookUrl : option string) (step : WorkflowStepDefinition)
  : WorkflowStepDefinition :=
  if String.eqb (sd_type step) "webhook" && truthy_id webhookUrl then
    {| sd_id := sd_id step; sd_name := sd_name step; sd_type := sd_type step;
       sd_provider := sd_provider step;
       sd_config := Some (<[ "url" := of_opt_string webhookUrl ]>
                            (default ∅ (sd_config step)));
       onSuccess := onSuccess step; onFailure := onFailure step;
       retry := retry step |}
  else step.

(** The workflow [OneShipService.createOrder] executes. *)
Definition create_order_workflow (webhookUrl : option string) : WorkflowDefinition :=
  {| wf_id := wf_id DEFAULT_CREATE_ORDER_WORKFLOW;
     wf_name := wf_name DEFAULT_CREATE_ORDER_WORKFLOW;
     trigger := trigger DEFAULT_CREATE_ORDER_WORKFLOW;
     steps := with_webhook_url webhookUrl <$> steps DEFAULT_CREATE_ORDER_WORKFLOW |}.

(** ** More concrete steps, workflows and providers *)

Module Fixtures.

(** A step of the type the definition allows but no executor handles. *)
Definition condition_step : WorkflowStepDefinition :=
  Demo.step_def "c" "condition" None (Some "next") None
    (Some {| maxAttempts := 3; delay := 10 |}).

Definition no_steps : WorkflowDefinition := Demo.workflow_of [].



(** A webhook step that its retry policy keeps from running. *)
Definition hook_disabled : WorkflowStepDefinition :=
  Demo.step_def "s2" "webhook" (Some {[ "url" := VStr "https://hooks.example/a" ]})
    (Some "s3") (Some "s4") (Some {| maxAttempts := -1; delay := 10 |}).

(** A delivery function that rejects with [null], and executors that
    throw [null] and a string. *)
Definition null_caller : WebhookCaller (W:=Demo.World) := λ url payload w,
  (Throw VNull,
   {| Demo.clock := Demo.clock w + 1; Demo.deliveries := S (Demo.deliveries w) |}).

Definition throws_null : IStepExecutor (W:=Demo.World) := λ sd c p w,
  (Throw VNull, {| Demo.clock := Demo.clock w + 1; Demo.deliveries := Demo.deliveries w |}).

Definition throws_text : IStepExecutor (W:=Demo.World) := λ sd c p w,
  (Throw (VStr "boom"), w).

Definition odd_engine : WorkflowEngine (W:=Demo.World) :=
  registerExecutor
    (registerExecutor
       (registerExecutor (newWorkflowEngine Demo.now Demo.setTimeout null_caller)
          "write_1" (Demo.writes_x 1))
       "throws_null" throws_null)
    "throws_text" throws_text.

(** Step A writes [x = 1]; step B throws [null], twice. *)
Definition write_then_null : WorkflowDefinition :=
  Demo.workflow_of [
    Demo.step_def "A" "write_1" None (Some "B") None None;
    Demo.step_def "B" "throws_null" None (Some "C") (Some "C")
      (Some {| maxAttempts := 2; delay := 5 |});
    Demo.step_def "C" "write_1" None None None None ].

(** A step that throws [null] at each of its two attempts. *)
Definition null_step : WorkflowStepDefinition :=
  Demo.step_def "n" "throws_null" None (Some "n") None
    (Some {| maxAttempts := 2; delay := 5 |}).

(** A step that throws a string. *)
Definition text_step : WorkflowStepDefinition :=
  Demo.step_def "t" "throws_text" None None None None.




(** The free-shipping workflow of the demonstration with other failure
    edges. *)
Definition free_shipping_rewired : WorkflowDefinition :=
  Demo.workflow_of [
    Demo.step_def "check" "check_free_shipping" None (Some "found") (Some "found") None;
    Demo.step_def "found" "delay" None None (Some "check") None;
    Demo.step_def "missing" "delay" None None None None ].



(** A world in which one delivery has already been attempted. *)
Definition later : State (W:=Demo.World) :=
  {| heap := [Demo.order_context];
     world := {| Demo.clock := 7; Demo.deliveries := 1 |}; log := [] |}.

Definition create_step : WorkflowStepDefinition :=
  Demo.step_def "create" "create_order" None None None None.

(** A create-order step that names its provider. *)
Definition create_with_yto : WorkflowStepDefinition :=
  {| sd_id := "create"; sd_name := "Create Order"; sd_type := "create_order";
     sd_provider := Some "yto"; sd_config := None;
     onSuccess := None; onFailure := None; retry := None |}.

(** Registry entries. *)
Definition yto : ProviderRegistry.Provider (W:=Demo.World) :=
  {| ProviderRegistry.p_id := "yto";
     ProviderRegistry.p_initialize := λ config w, (Ok tt, w);
     ProviderRegistry.p_stopFreeShippingListener := None;
     ProviderRegistry.p_operations := Demo.plain_courier |}.

Definition registry : ProviderRegistry.t (W:=Demo.World) :=
  {| ProviderRegistry.providers := [("yto", yto)];
     ProviderRegistry.initializedProviders := ∅ |}.

(** A provider built on the base class, without a free-shipping check. *)
Definition basic : BaseProvider.Implementation (W:=Demo.World) :=
  {| BaseProvider.b_id := "zto";
     BaseProvider.doCreateOrder := createOrder Demo.plain_courier;
     BaseProvider.doQueryOrder := queryOrder Demo.plain_courier;
     BaseProvider.doCheckFreeShipping := None |}.

Definition based_couriers : gmap string (IProvider (W:=Demo.World)) :=
  {[ "yto" := BaseProvider.as_provider (Some ∅) basic ]}.

End Fixtures.

(** * Properties *)

Section Properties.

Context {W : Type} (now : W → Z) (setTimeout : Value → W → W).

Implicit Types (σ : State (W:=W)) (step : WorkflowStep)
  (stepDef : WorkflowStepDefinition) (execution : WorkflowExecution)
  (this : WorkflowEngine (W:=W)) (providers : gmap string (IProvider (W:=W)))
  (executor : IStepExecutor (W:=W)) (workflow : WorkflowDefinition)
  (context : loc).

(** ** Thrown values *)

Lemma read_message_Ok error :
  nullish error = false → read_message error = Ok (opt_prop error "message").
Proof. unfold read_message. by intros ->. Qed.

Lemma read_message_Throw error :
  nullish error = true →
  read_message error = Throw (new_Error (cannot_read error "message")).
Proof. unfold read_message. by intros ->. Qed.

Lemma read_message_new_Error message :
  read_message (new_Error message) = Ok (VStr message).
Proof. reflexivity. Qed.

Lemma message_unreadable_read error :
  message_unreadable error → ∃ message, read_message error = Ok (VStr message).
Proof. intros (thrown & _ & ->). by eexists. Qed.

Lemma step_caught_cases step error σ :
  (nullish error = false ∧
   step_caught now step error σ
   = (Ok (step_failed step (opt_prop error "message") (now (world σ))), σ)) ∨
  (nullish error = true ∧
   step_caught now step error σ
   = (Throw (new_Error (cannot_read error "message")), σ)).
Proof.
  unfold step_caught, read_message. destruct (nullish error); [right|left]; done.
Qed.

(** ** The retry loop *)

Lemma retryLoop_body executor stepDef context providers M d attempts step σ :
  retryLoop now setTimeout executor stepDef context providers M d attempts step σ =
  if decide (attempts < M) then
    let r := executor stepDef (deref σ context) providers (world σ) in
    match r.1 with
    | Ok result =>
        let σ1 := emit (set_world σ r.2) (EvInvoke (sd_id stepDef) None) in
        (Ok (step_succeeded step (output result) (now (world σ1))), σ1)
    | Throw error =>
        let σ1 := emit (set_world σ r.2) (EvInvoke (sd_id stepDef) (Some error)) in
        if decide (M <= attempts + 1) then (Throw error, σ1)
        else
          retryLoop now setTimeout executor stepDef context providers M d
            (attempts + 1) step
            (if decide (0 < d)
             then emit (set_world σ1 (setTimeout (VNum d) (world σ1))) (EvBackoff d)
             else σ1)
    end
  else (Ok step, σ).
Proof.
  rewrite retryLoop_equation_1.
  destruct (decide (attempts < M)); reflexivity.
Qed.

(** The loop never touches the heap. *)
Lemma retryLoop_heap executor stepDef context providers M d (k : nat) :
  ∀ attempts step σ, Z.to_nat (M - attempts) = k →
    heap (retryLoop now setTimeout executor stepDef context providers M d attempts step σ).2
    = heap σ.
Proof.
  induction k as [k IH] using lt_wf_ind. intros attempts step σ Hk.
  rewrite retryLoop_body. destruct (decide (attempts < M)); [|done].
  cbn zeta. destruct ((executor _ _ _ _).1); [done|].
  destruct (decide (M <= attempts + 1)); [done|].
  erewrite (IH (Z.to_nat (M - (attempts + 1)))); [|lia|done].
  by destruct (decide (0 < d)).
Qed.

(** Once entered, the loop ends in one of two ways only. *)
Lemma retryLoop_entered executor stepDef context providers M d (k : nat) :
  ∀ attempts step σ, Z.to_nat (M - attempts) = k → attempts < M →
    let r := retryLoop now setTimeout executor stepDef context providers M d attempts step σ in
    (∃ out, r.1 = Ok (step_succeeded step out (now (world r.2)))) ∨
    (∃ error, r.1 = Throw error).
Proof.
  induction k as [k IH] using lt_wf_ind. intros attempts step σ Hk Hlt.
  cbn zeta. rewrite retryLoop_body. destruct (decide (attempts < M)); [|lia].
  cbn zeta. destruct ((executor _ _ _ _).1) as [result|error]; [by eauto|].
  destruct (decide (M <= attempts + 1)); [by eauto|].
  eapply (IH (Z.to_nat (M - (attempts + 1)))); [lia|done|lia].
Qed.

Lemma failing_events_cons stepId d m m' ms :
  failing_events stepId d (m :: m' :: ms)
  = EvInvoke stepId (Some m) ::
    (if decide (0 < d) then [EvBackoff d] else []) ++
    failing_events stepId d (m' :: ms).
Proof. reflexivity. Qed.

Lemma attempts_world_succ (call pause : W → W) (n : nat) (w : W) :
  attempts_world call pause (S (S n)) w
  = attempts_world call pause (S n) (pause (call w)).
Proof. reflexivity. Qed.

(** When every attempt throws, the loop makes all the attempts that are
    left and rethrows the last error; the world has then gone through
    that many calls, with a back-off between each two. *)
Lemma retryLoop_all_throw executor stepDef context providers M d contextObj
    (P : Value → Prop) :
  (∀ w, ∃ error, (executor stepDef contextObj providers w).1 = Throw error ∧ P error) →
  ∀ (k : nat) attempts step σ,
    deref σ context = contextObj →
    Z.to_nat (M - attempts) = S k →
    ∃ thrown final σ',
      retryLoop now setTimeout executor stepDef context providers M d attempts step σ
        = (Throw final, σ') ∧
      length thrown = S k ∧
      last thrown = Some final ∧
      P final ∧
      log σ' = log σ ++ failing_events (sd_id stepDef) d thrown ∧
      world σ' = attempts_world (λ w, (executor stepDef contextObj providers w).2)
                   (back_off setTimeout d) (S k) (world σ) ∧
      heap σ' = heap σ.
Proof.
  intros Hthrows. induction k as [|k IH]; intros attempts step σ Hobj Hk.
  - rewrite retryLoop_body. destruct (decide (attempts < M)); [|lia].
    cbn zeta. rewrite Hobj.
    destruct (Hthrows (world σ)) as (e & He & HP).
    rewrite He. destruct (decide (M <= attempts + 1)); [|lia].
    exists [e], e. eexists. split; [reflexivity|]. done.
  - rewrite retryLoop_body. destruct (decide (attempts < M)); [|lia].
    cbn zeta. rewrite Hobj.
    destruct (Hthrows (world σ)) as (e & He & HP).
    rewrite He. destruct (decide (M <= attempts + 1)); [lia|].
    match goal with |- context [retryLoop _ _ _ _ _ _ _ _ _ _ ?s] =>
      destruct (IH (attempts + 1) step s)
        as (es & final & σ' & Heq & Hlen & Hlast & HPf & Hlog & Hworld & Hheap)
    end; [by destruct (decide (0 < d))|lia|].
    exists (e :: es), final, σ'. split; [done|]. split; [by cbn; rewrite Hlen|].
    destruct es as [|e' es]; [done|]. split; [done|]. split; [done|].
    rewrite Hlog, Hworld, Hheap, failing_events_cons, attempts_world_succ.
    unfold back_off.
    destruct (decide (0 < d)); cbn [log world heap emit set_world];
      rewrite <- ?app_assoc; done.
Qed.

Lemma invocation_outcomes_failing stepId d messages :
  invocation_outcomes (failing_events stepId d messages) = Some <$> messages.
Proof.
  induction messages as [|m ms IH]; [done|].
  destruct ms as [|m' ms]; [done|].
  rewrite failing_events_cons, fmap_cons.
  destruct (decide (0 < d)); cbn [invocation_outcomes app]; by rewrite IH.
Qed.



(** ** One step *)

Lemma executeStep_cases this stepDef context providers σ :
  let r := executeStep now setTimeout this stepDef context providers σ in
  let step := new_step stepDef context (now (world σ)) in
  r.1 = Ok step ∨
  (∃ out, r.1 = Ok (step_succeeded step out (now (world r.2)))) ∨
  (∃ message, r.1 = Ok (step_failed step message (now (world r.2)))) ∨
  (∃ error, r.1 = Throw error ∧ message_unreadable error).
Proof.
  cbn zeta. unfold executeStep.
  set (step := new_step _ _ _).
  assert (∀ error σ',
            (∃ message, (step_caught now step error σ').1
                        = Ok (step_failed step message
                                (now (world (step_caught now step error σ').2)))) ∨
            (∃ e, (step_caught now step error σ').1 = Throw e ∧ message_unreadable e))
    as Hcaught.
  { intros error σ'. destruct (step_caught_cases step error σ') as [[_ ->]|[Hn ->]];
      [left; by eexists|right]. eexists. split; [done|]. by exists error. }
  destruct (stepExecutors this !! sd_type stepDef) as [executor|].
  2:{ right. right. left. by eexists. }
  set (M := num_or _ 1). set (d := num_or _ 0).
  destruct (decide (0 < M)) as [HM|HM].
  - destruct (retryLoop_entered executor stepDef context providers M d
                (Z.to_nat (M - 0)) 0 step σ eq_refl HM) as [[out H]|[e H]];
      destruct (retryLoop _ _ _ _ _ _ _ _ _ _ _) as [[s'|e'] σ'];
      simplify_eq/=; [by eauto|].
    right. right. apply Hcaught.
  - rewrite retryLoop_body. destruct (decide (0 < M)); [lia|]. by left.
Qed.

Lemma executeStep_heap this stepDef context providers σ :
  heap (executeStep now setTimeout this stepDef context providers σ).2 = heap σ.
Proof.
  unfold executeStep.
  assert (∀ step error σ', heap (step_caught now step error σ').2 = heap σ') as Hcaught.
  { intros step error σ'. unfold step_caught. by destruct (read_message error). }
  destruct (stepExecutors this !! sd_type stepDef) as [executor|]; [|apply Hcaught].
  set (M := num_or _ 1). set (d := num_or _ 0). set (step := new_step _ _ _).
  pose proof (retryLoop_heap executor stepDef context providers M d
                (Z.to_nat (M - 0)) 0 step σ eq_refl) as H.
  destruct (retryLoop _ _ _ _ _ _ _ _ _ _ _) as [[s'|e'] σ']; [done|].
  by rewrite Hcaught.
Qed.

Lemma executeStep_id this stepDef context providers σ step :
  (executeStep now setTimeout this stepDef context providers σ).1 = Ok step →
  ws_id step = sd_id stepDef.
Proof.
  destruct (executeStep_cases this stepDef context providers σ)
    as [->|[[out ->]|[[m ->]|[e [-> _]]]]]; by intros [= <-].
Qed.

Lemma executeStep_input this stepDef context providers σ step :
  (executeStep now setTimeout this stepDef context providers σ).1 = Ok step →
  ws_input step = Some context.
Proof.
  destruct (executeStep_cases this stepDef context providers σ)
    as [->|[[out ->]|[[m ->]|[e [-> _]]]]]; by intros [= <-].
Qed.

(** Only a step that succeeded carries an output. *)
Lemma executeStep_output this stepDef context providers σ step :
  (executeStep now setTimeout this stepDef context providers σ).1 = Ok step →
  ws_status step ≠ SUCCESS → ws_output step = None.
Proof.
  destruct (executeStep_cases this stepDef context providers σ)
    as [->|[[out ->]|[[m ->]|[e [-> _]]]]]; by intros [= <-].
Qed.


(** C9.  A declared [maxAttempts] of 0 is falsy and falls back to the
    default of 1: the step runs exactly as a step without a retry policy
    does (both make one attempt and never back off), so a resolved
    executor is invoked exactly once. *)
Theorem zero_max_attempts_is_default this stepDef context providers σ :
  (retry stepDef = None ∨ ∃ d, retry stepDef = Some {| maxAttempts := 0; delay := d |}) →
  let r := executeStep now setTimeout this stepDef context providers σ in
  r = executeStep_once now this stepDef context providers σ ∧
  (is_Some (stepExecutors this !! sd_type stepDef) →
   ∃ outcome, log r.2 = log σ ++ [EvInvoke (sd_id stepDef) outcome]).
Proof.
  intros Hretry. cbn zeta. unfold executeStep, executeStep_once.
  destruct (stepExecutors this !! sd_type stepDef) as [executor|];
    [|split; [done|by intros [? ?]]].
  assert (num_or (maxAttempts <$> retry stepDef) 1 = 1) as ->
    by (destruct Hretry as [->|[d ->]]; reflexivity).
  rewrite retryLoop_body. destruct (decide (0 < 1)); [|lia].
  cbn zeta. destruct ((executor _ _ _ _).1) as [result|error].
  - split; [done|]. intros _. by eexists.
  - destruct (decide (1 <= 0 + 1)); [|lia]. split; [done|]. intros _.
    exists (Some error). unfold step_caught. by destruct (read_message error).
Qed.

(** ** The walk *)

Lemma find_step_id workflow current stepDef :
  find_step workflow current = Some stepDef → sd_id stepDef = current.
Proof.
  unfold find_step. intros H. apply find_some in H as [_ H].
  by apply String.eqb_eq in H.
Qed.

Lemma find_step_In workflow current stepDef :
  find_step workflow current = Some stepDef → In stepDef (steps workflow).
Proof. unfold find_step. intros H. by apply find_some in H as [H _]. Qed.

Lemma walk_stops this workflow context providers fuel current execution σ :
  stops_at workflow current →
  walk now setTimeout this workflow context providers fuel current execution σ
  = Finished execution σ.
Proof.
  destruct current as [c|]; [|by destruct fuel].
  intros [H|H]; destruct fuel; cbn [walk]; rewrite H; cbn [negb]; try done;
    by destruct (truthy (VStr c)).
Qed.

Lemma walk_suspends this workflow context providers c stepDef execution σ :
  truthy (VStr c) = true → find_step workflow c = Some stepDef →
  walk now setTimeout this workflow context providers 0 (Some c) execution σ
  = Suspended c execution σ.
Proof. intros H1 H2. cbn [walk]. by rewrite H1, H2. Qed.

(** One iteration of the loop. *)
Lemma walk_iteration this workflow context providers fuel c stepDef execution σ :
  truthy (VStr c) = true → find_step workflow c = Some stepDef →
  walk now setTimeout this workflow context providers (S fuel) (Some c) execution σ
  = let r := executeStep now setTimeout this stepDef context providers σ in
    match r.1 with
    | Throw error => Rejected error execution r.2
    | Ok step =>
        let execution1 := push_step execution step in
        if decide (ws_status step = FAILED) then
          Finished (fail_execution execution1 (ws_error step) (now (world r.2))) r.2
        else if decide (ws_status step = SUCCESS) then
          walk now setTimeout this workflow context providers fuel (onSuccess stepDef)
            execution1 (merge_output r.2 context step)
        else Finished execution1 (merge_output r.2 context step)
    end.
Proof.
  intros H1 H2. cbn [walk]. rewrite H1, H2. cbn [negb]. cbn zeta.
  destruct ((executeStep _ _ _ _ _ _ _).1) as [step|error]; [|done].
  destruct (decide (ws_status _ = FAILED)); [done|].
  destruct (decide (ws_status _ = SUCCESS)); done.
Qed.

(** The iteration at a step that returned its record. *)
Lemma walk_iteration_Ok this workflow context providers fuel c stepDef execution σ
    step σ1 :
  truthy (VStr c) = true → find_step workflow c = Some stepDef →
  executeStep now setTimeout this stepDef context providers σ = (Ok step, σ1) →
  walk now setTimeout this workflow context providers (S fuel) (Some c) execution σ
  = let execution1 := push_step execution step in
    if decide (ws_status step = FAILED) then
      Finished (fail_execution execution1 (ws_error step) (now (world σ1))) σ1
    else if decide (ws_status step = SUCCESS) then
      walk now setTimeout this workflow context providers fuel (onSuccess stepDef)
        execution1 (merge_output σ1 context step)
    else Finished execution1 (merge_output σ1 context step).
Proof.
  intros H1 H2 Hstep. rewrite (walk_iteration _ _ _ _ _ _ stepDef) by done.
  cbn zeta. by rewrite Hstep.
Qed.

(** The proof rule of the loop: an invariant [I] kept by every iteration
    that continues gives [F] of the result, whatever ends the walk. *)
Lemma walk_rule this workflow context providers
    (I : option string → WorkflowExecution → State (W:=W) → Prop)
    (F : WalkResult (W:=W) → Prop) :
  (∀ current execution σ,
      I current execution σ → stops_at workflow current → F (Finished execution σ)) →
  (∀ c stepDef execution σ,
      I (Some c) execution σ → truthy (VStr c) = true →
      find_step workflow c = Some stepDef → F (Suspended c execution σ)) →
  (∀ c stepDef execution σ step σ1,
      I (Some c) execution σ → truthy (VStr c) = true →
      find_step workflow c = Some stepDef →
      executeStep now setTimeout this stepDef context providers σ = (Ok step, σ1) →
      let execution1 := push_step execution step in
      (ws_status step = FAILED →
         F (Finished (fail_execution execution1 (ws_error step) (now (world σ1))) σ1)) ∧
      (ws_status step = SUCCESS →
         I (onSuccess stepDef) execution1 (merge_output σ1 context step)) ∧
      (ws_status step ≠ FAILED → ws_status step ≠ SUCCESS →
         F (Finished execution1 (merge_output σ1 context step)))) →
  (∀ c stepDef execution σ error σ1,
      I (Some c) execution σ → truthy (VStr c) = true →
      find_step workflow c = Some stepDef →
      executeStep now setTimeout this stepDef context providers σ = (Throw error, σ1) →
      F (Rejected error execution σ1)) →
  ∀ fuel current execution σ,
    I current execution σ →
    F (walk now setTimeout this workflow context providers fuel current execution σ).
Proof.
  intros Hstop Hsusp Hiter Hrej.
  induction fuel as [|fuel IH]; intros current execution σ HI.
  - destruct current as [c|]; [|by apply (Hstop None)].
    destruct (truthy (VStr c)) eqn:Ht;
      [|rewrite walk_stops; [by apply (Hstop (Some c)); [|left]|by left]].
    destruct (find_step workflow c) as [stepDef|] eqn:Hf;
      [|rewrite walk_stops; [by apply (Hstop (Some c)); [|right]|by right]].
    rewrite (walk_suspends _ _ _ _ _ stepDef) by done. by eapply Hsusp.
  - destruct current as [c|]; [|by apply (Hstop None)].
    destruct (truthy (VStr c)) eqn:Ht;
      [|rewrite walk_stops; [by apply (Hstop (Some c)); [|left]|by left]].
    destruct (find_step workflow c) as [stepDef|] eqn:Hf;
      [|rewrite walk_stops; [by apply (Hstop (Some c)); [|right]|by right]].
    rewrite (walk_iteration _ _ _ _ _ _ stepDef) by done. cbn zeta.
    destruct (executeStep now setTimeout this stepDef context providers σ)
      as [[step|error] σ1] eqn:Hstep; cbn [fst snd].
    2:{ by eapply Hrej. }
    destruct (Hiter c stepDef execution σ step σ1 HI Ht Hf Hstep)
      as (Hfail & Hsucc & Hother).
    destruct (decide (ws_status _ = FAILED)); [by apply Hfail|].
    destruct (decide (ws_status _ = SUCCESS)); [by apply IH, Hsucc|].
    by apply Hother.
Qed.

Lemma chained_snoc workflow records step :
  chained workflow records →
  (∀ s, last records = Some s → follows workflow s step) →
  chained workflow (records ++ [step]).
Proof.
  intros Hch Hlast i s s' Hi HSi.
  apply lookup_snoc_Some in HSi as [[Hlt Hs']|[Heq <-]].
  - rewrite lookup_app_l in Hi by lia. by eapply Hch.
  - rewrite lookup_app_l in Hi by lia. apply Hlast.
    rewrite last_lookup, <- Heq. exact Hi.
Qed.

Lemma walking_push workflow c stepDef execution step next :
  walking workflow (Some c) execution →
  find_step workflow c = Some stepDef →
  ws_id step = sd_id stepDef →
  ws_status step = SUCCESS →
  next = onSuccess stepDef →
  walking workflow next (push_step execution step).
Proof.
  intros (Hst & Herr & Hall & Hch & Hlast) Hf Hid Hs ->.
  pose proof (find_step_id _ _ _ Hf) as Hc.
  assert (find_step workflow (ws_id step) = Some stepDef) as Hf' by congruence.
  repeat split; cbn [push_step we_status we_error we_steps]; try done.
  - apply Forall_app. split; [done|]. repeat constructor; [done|]. by exists stepDef.
  - apply chained_snoc; [done|]. intros s Hs'. unfold follows.
    destruct (Hlast s Hs') as (sd & ? & ?). exists sd. split; [done|]. congruence.
  - intros s. rewrite last_snoc. intros [= <-]. by exists stepDef.
Qed.

Lemma pushed_records workflow c stepDef execution step :
  walking workflow (Some c) execution →
  find_step workflow c = Some stepDef →
  ws_id step = sd_id stepDef →
  Forall (recorded workflow) (we_steps execution ++ [step]) ∧
  chained workflow (we_steps execution ++ [step]).
Proof.
  intros (Hst & Herr & Hall & Hch & Hlast) Hf Hid.
  pose proof (find_step_id _ _ _ Hf) as Hc.
  assert (find_step workflow (ws_id step) = Some stepDef) as Hf' by congruence.
  split.
  - apply Forall_app. split; [|repeat constructor; by exists stepDef].
    eapply Forall_impl; [exact Hall|]. by intros ? [_ ?].
  - apply chained_snoc; [done|]. intros s Hs'. unfold follows.
    destruct (Hlast s Hs') as (sd & ? & ?). exists sd. split; [done|]. congruence.
Qed.

(** What [executeStep] rejects with. *)
Lemma executeStep_rejects this stepDef context providers σ error :
  (executeStep now setTimeout this stepDef context providers σ).1 = Throw error →
  message_unreadable error.
Proof.
  destruct (executeStep_cases this stepDef context providers σ)
    as [->|[[out ->]|[[m ->]|[e [-> He]]]]]; try done. by intros [= <-].
Qed.

(** The shape of the record the loop leaves, for every number of
    iterations. *)
Lemma walk_shape this workflow context providers fuel current execution σ :
  walking workflow current execution →
  walk_outcome now workflow
    (walk now setTimeout this workflow context providers fuel current execution σ).
Proof.
  revert fuel current execution σ.
  apply (walk_rule this workflow context providers
           (λ current execution _, walking workflow current execution)).
  - intros current execution σ (Hst & Herr & Hall & Hch & Hlast) _.
    cbn [walk_outcome]. split; [|split; [done|left; repeat split; try done]].
    + eapply Forall_impl; [exact Hall|]. by intros ? [_ ?].
    + eapply Forall_impl; [exact Hall|]. intros ? [-> _]. done.
  - intros c stepDef execution σ HI Ht Hf. cbn [walk_outcome]. by rewrite Hf.
  - intros c stepDef execution σ step σ1 HI Ht Hf Hstep. cbn zeta.
    pose proof (executeStep_id this stepDef context providers σ step
                  (f_equal fst Hstep)) as Hid.
    destruct (pushed_records workflow c stepDef execution _ HI Hf Hid) as [Hrec Hch].
    destruct HI as (Hst & Herr & Hall & Hch0 & Hlast) eqn:HI'. clear HI'.
    split; [|split].
    + intros Hfailed. cbn [walk_outcome fail_execution push_step we_steps].
      split; [done|]. split; [done|]. right.
      eexists (we_steps execution), _. cbn. repeat split; try done.
      eapply Forall_impl; [exact Hall|]. by intros ? [? _].
    + intros Hs. by eapply walking_push.
    + intros Hnf Hns. cbn [walk_outcome push_step we_steps we_status we_error].
      split; [done|]. split; [done|]. left. repeat split; try done.
      apply Forall_app. split; [|by repeat constructor].
      eapply Forall_impl; [exact Hall|]. intros ? [-> _]. done.
  - intros c stepDef execution σ error σ1 HI Ht Hf Hstep. cbn [walk_outcome].
    split; [by eapply executeStep_rejects, (f_equal fst Hstep)|].
    exists c. by rewrite Hf.
Qed.

Lemma executeStep_terminal this stepDef context providers σ step :
  retry_well_formed stepDef →
  (executeStep now setTimeout this stepDef context providers σ).1 = Ok step →
  terminal step.
Proof.
  intros Hwf. unfold executeStep.
  assert (∀ s error σ', (step_caught now s error σ').1 = Ok step → terminal step)
    as Hcaught.
  { intros s error σ'. unfold step_caught. destruct (read_message error); [|done].
    intros [= <-]. split; [by right|by eexists]. }
  destruct (stepExecutors this !! sd_type stepDef) as [executor|]; [|by apply Hcaught].
  set (M := num_or _ 1). set (d := num_or _ 0). set (step0 := new_step _ _ _).
  assert (0 < M) as HM.
  { unfold M. destruct (retry stepDef) as [r|] eqn:Hr; cbn; [|lia].
    specialize (Hwf r Hr). destruct (maxAttempts r =? 0) eqn:?; lia. }
  destruct (retryLoop_entered executor stepDef context providers M d
              (Z.to_nat (M - 0)) 0 step0 σ eq_refl HM) as [[out H]|[e H]];
    destruct (retryLoop _ _ _ _ _ _ _ _ _ _ _) as [[s'|e'] σ'];
    simplify_eq/=; [|by apply Hcaught].
  intros [= <-]. split; [by left|by eexists].
Qed.

Lemma result_steps_executeWorkflowAsync this fuel workflow execution initialContext
    providers σ :
  result_steps (executeWorkflowAsync now setTimeout this fuel workflow execution
                  initialContext providers σ)
  = result_steps (walk now setTimeout this workflow (alloc σ initialContext).1
                    providers fuel (first_step_id workflow) execution
                    (alloc σ initialContext).2).
Proof. unfold executeWorkflowAsync. cbn zeta. by destruct (walk _ _ _ _ _ _ _ _ _ _). Qed.

Lemma result_steps_on_rejection error execution σ :
  result_steps (on_rejection now error execution σ) = we_steps execution.
Proof. unfold on_rejection. by destruct (read_message error). Qed.

Lemma result_state_on_rejection error execution σ :
  result_state (on_rejection now error execution σ) = σ.
Proof. unfold on_rejection. by destruct (read_message error). Qed.

(** The records of a run are those of its walk. *)
Lemma result_steps_execute this fuel executionId workflow initialContext providers σ :
  result_steps (execute now setTimeout this fuel executionId workflow initialContext
                  providers σ)
  = result_steps (walk now setTimeout this workflow (alloc σ initialContext).1
                    providers fuel (first_step_id workflow)
                    (newExecution now executionId workflow initialContext σ)
                    (alloc σ initialContext).2).
Proof.
  unfold execute. rewrite <- result_steps_executeWorkflowAsync.
  destruct (executeWorkflowAsync _ _ _ _ _ _ _ _ _) as [e σ'|c e σ'|err e σ'];
    [done|done|]. apply result_steps_on_rejection.
Qed.

(** So is the state it leaves. *)
Lemma result_state_execute this fuel executionId workflow initialContext providers σ :
  result_state (execute now setTimeout this fuel executionId workflow initialContext
                  providers σ)
  = result_state (walk now setTimeout this workflow (alloc σ initialContext).1
                    providers fuel (first_step_id workflow)
                    (newExecution now executionId workflow initialContext σ)
                    (alloc σ initialContext).2).
Proof.
  unfold execute, executeWorkflowAsync. cbn zeta.
  destruct (walk _ _ _ _ _ _ _ _ _ _) as [e σ'|c e σ'|err e σ'];
    [done|done|]. apply result_state_on_rejection.
Qed.

Lemma walking_newExecution executionId workflow initialContext σ current :
  walking workflow current (newExecution now executionId workflow initialContext σ).
Proof.
  repeat split; cbn; done.
Qed.

(** C10.  When every retry policy of the definition allows at least one
    attempt, each record in the execution's step sequence is terminal
    (SUCCESS or FAILED, with a completion time), after any number of
    iterations of the walk. *)
Theorem recorded_steps_are_terminal this fuel executionId workflow initialContext
    providers σ :
  Forall retry_well_formed (steps workflow) →
  Forall terminal
    (result_steps (execute now setTimeout this fuel executionId workflow
                     initialContext providers σ)).
Proof.
  intros Hwf. rewrite result_steps_execute.
  apply (walk_rule this workflow _ providers
           (λ _ execution _, Forall terminal (we_steps execution))
           (λ r, Forall terminal (result_steps r))).
  - by intros.
  - by intros.
  - intros c stepDef execution σ0 step σ1 HI Ht Hf Hstep. cbn zeta.
    assert (Forall terminal (we_steps execution ++ [step])) as Hall.
    { apply Forall_app. split; [done|]. apply Forall_singleton.
      eapply executeStep_terminal; [|exact (f_equal fst Hstep)].
      rewrite Forall_forall in Hwf. apply Hwf, list_elem_of_In.
      by eapply find_step_In. }
    by repeat split.
  - by intros.
  - by constructor.
Qed.

Lemma execute_outcome this fuel executionId workflow initialContext providers σ :
  run_outcome now workflow
    (execute now setTimeout this fuel executionId workflow initialContext providers σ).
Proof.
  unfold execute, executeWorkflowAsync. cbn zeta.
  pose proof (walk_shape this workflow (alloc σ initialContext).1 providers fuel
                (first_step_id workflow)
                (newExecution now executionId workflow initialContext σ)
                (alloc σ initialContext).2
                (walking_newExecution _ _ _ _ _)) as H.
  destruct (walk _ _ _ _ _ _ _ _ _ _) as [e σ'|c e σ'|err e σ']; [|exact H|].
  - destruct H as (Hrec & Hch & [(Hst & Herr & Hall)|Hfail]).
    + repeat split; try done. left. cbn. rewrite Hst. by destruct (decide _).
    + repeat split; try done. right. left.
      destruct Hfail as (earlier & failed & Hsteps & Hearlier & Hf & Hst & Herr & Hc).
      exists earlier, failed. cbn. rewrite Hst. by destruct (decide _).
  - destruct H as ((thrown & Hnull & ->) & c & (Hst & Herr & Hall & Hch & Hlast) & Ht & Hf).
    unfold on_rejection. cbn [read_message nullish new_Error opt_prop assoc String.eqb].
    cbn. split; [|split; [done|split; [done|]]].
    + eapply Forall_impl; [exact Hall|]. by intros ? [_ ?].
    + right. right. split; [done|]. split.
      { eapply Forall_impl; [exact Hall|]. by intros ? [? _]. }
      split; [by exists thrown|]. split; [done|]. by exists c.
Qed.

(** C2.  When a recorded step has status FAILED, the run is over: the
    execution is FAILED, its error is that step's error, its completion
    time is stamped, and the failed record is the last one of the
    sequence (nothing is appended after it, whatever its [onFailure]
    edge says); every record before it succeeded. *)
Theorem failed_step_fails_execution this fuel executionId workflow initialContext
    providers σ step :
  let r := execute now setTimeout this fuel executionId workflow initialContext
             providers σ in
  step ∈ result_steps r →
  ws_status step = FAILED →
  ∃ execution' σ' earlier,
    r = Finished execution' σ' ∧
    we_steps execution' = earlier ++ [step] ∧
    Forall (λ s, ws_status s = SUCCESS) earlier ∧
    we_status execution' = FAILED ∧
    we_error execution' = ws_error step ∧
    we_completedAt execution' = Some (now (world σ')).
Proof.
  cbn zeta. intros Hin Hfailed.
  pose proof (execute_outcome this fuel executionId workflow initialContext
                providers σ) as H.
  destruct (execute _ _ _ _ _ _ _ _ _) as [e σ'|c e σ'|err e σ']; cbn in Hin, H;
    [| |done].
  - destruct H as (_ & _ & Hc & [(_ & _ & Hall)|[Hfail|Hrej]]).
    + rewrite Forall_forall in Hall. by destruct (Hall step Hin).
    + destruct Hfail as (earlier & failed & Hsteps & Hearlier & Hf & Hst & Herr & _).
      unfold result_steps in Hin. cbn in Hin. rewrite Hsteps in Hin.
      apply elem_of_app in Hin as [Hin|Hin].
      * rewrite Forall_forall in Hearlier. specialize (Hearlier step Hin). congruence.
      * apply list_elem_of_singleton in Hin as ->.
        by exists e, σ', earlier.
    + destruct Hrej as (_ & Hall & _).
      rewrite Forall_forall in Hall. specialize (Hall step Hin). congruence.
  - destruct H as ((_ & _ & Hall & _) & _).
    rewrite Forall_forall in Hall. destruct (Hall step Hin). congruence.
Qed.

Lemma find_step_None workflow target :
  target ∉ (sd_id <$> steps workflow) → find_step workflow target = None.
Proof.
  intros Hnot. destruct (find_step workflow target) as [sd|] eqn:Hf; [|done].
  exfalso. apply Hnot. apply list_elem_of_fmap. exists sd. split.
  - symmetry. by eapply find_step_id.
  - apply list_elem_of_In. by eapply find_step_In.
Qed.

(** C3.  When a recorded step succeeded and the [onSuccess] of its
    definition names an id that no step of the definition has, the walk is
    over without an error: that record is the last one, the execution is
    SUCCESS, carries no error and has its completion time stamped. *)
Theorem dangling_success_edge_ends_in_success this fuel executionId workflow
    initialContext providers σ i step stepDef target :
  let r := execute now setTimeout this fuel executionId workflow initialContext
             providers σ in
  result_steps r !! i = Some step →
  ws_status step = SUCCESS →
  find_step workflow (ws_id step) = Some stepDef →
  onSuccess stepDef = Some target →
  target ∉ (sd_id <$> steps workflow) →
  ∃ execution' σ',
    r = Finished execution' σ' ∧
    length (we_steps execution') = S i ∧
    we_status execution' = SUCCESS ∧
    we_error execution' = VUndefined ∧
    we_completedAt execution' = Some (now (world σ')).
Proof.
  cbn zeta. intros Hi Hs Hdef Hedge Hdangling.
  apply find_step_None in Hdangling.
  pose proof (execute_outcome this fuel executionId workflow initialContext
                providers σ) as H.
  assert (∀ records, chained workflow records → Forall (recorded workflow) records →
            records !! i = Some step → length records = S i) as Hlast.
  { intros records Hch Hrec Hri.
    destruct (records !! S i) as [s'|] eqn:HSi.
    - destruct (Hch i step s' Hri HSi) as (sd & Hsd & Hnext).
      rewrite Forall_lookup in Hrec. destruct (Hrec _ _ HSi) as [sd' Hsd'].
      congruence.
    - apply lookup_ge_None in HSi. apply lookup_lt_Some in Hri. lia. }
  destruct (execute _ _ _ _ _ _ _ _ _) as [e σ'|c e σ'|err e σ']; cbn in Hi, H;
    [| |done].
  - destruct H as (Hrec & Hch & Hc & [(Hst & Herr & _)|[Hfail|Hrej]]).
    + exists e, σ'. repeat split; try done. by apply Hlast.
    + destruct Hfail as (earlier & failed & Hsteps & _ & Hf & _).
      pose proof (Hlast _ Hch Hrec Hi) as Hlen.
      unfold result_steps in Hi. cbn in Hi. rewrite Hsteps in Hi, Hlen.
      rewrite length_app in Hlen. cbn in Hlen.
      rewrite lookup_app_r, list_lookup_singleton_Some in Hi by lia.
      destruct Hi as [_ <-]. congruence.
    + destruct Hrej as (_ & _ & _ & _ & c & _ & [sd Hsd] & Hlst).
      pose proof (Hlast _ Hch Hrec Hi) as Hlen.
      destruct (Hlst step) as (sd' & Hsd' & Hnext).
      { rewrite last_lookup. unfold result_steps in Hi. cbn in Hi.
        by rewrite Hlen. }
      congruence.
  - destruct H as ((_ & _ & Hall & Hch & Hlst) & Ht & [sd Hsd]).
    assert (Forall (recorded workflow) (we_steps e)) as Hrec
      by (eapply Forall_impl; [exact Hall|]; by intros ? [_ ?]).
    pose proof (Hlast _ Hch Hrec Hi) as Hlen.
    destruct (Hlst step) as (sd' & Hsd' & Hnext).
    { rewrite last_lookup. unfold result_steps in Hi. cbn in Hi.
      by rewrite Hlen. }
    congruence.
Qed.

(** ** The context *)

Lemma deref_alloc σ o : deref (alloc σ o).2 (alloc σ o).1 = o.
Proof. unfold deref, alloc. cbn. by rewrite list_lookup_middle. Qed.

Lemma deref_merge_output σ context step :
  (context < length (heap σ))%nat →
  deref (merge_output σ context step) context
  = match ws_output step with
    | Some out => object_assign (deref σ context) out
    | None => deref σ context
    end.
Proof.
  intros Hlt. unfold merge_output. destruct (ws_output step) as [out|]; [|done].
  unfold deref at 1, assign_into. cbn [heap].
  by rewrite list_lookup_insert_eq.
Qed.

Lemma heap_length_merge_output σ context step :
  length (heap (merge_output σ context step)) = length (heap σ).
Proof.
  unfold merge_output, assign_into. destruct (ws_output step); [|done].
  cbn [heap]. by rewrite length_insert.
Qed.

Lemma merged_context_snoc initial records step :
  merged_context initial (records ++ [step])
  = match ws_output step with
    | Some out => object_assign (merged_context initial records) out
    | None => merged_context initial records
    end.
Proof. unfold merged_context. by rewrite foldl_app. Qed.

(** The context object holds the initial context overwritten by the
    recorded outputs, in execution order. *)
Lemma walk_context this workflow context providers initial fuel current execution σ :
  (context < length (heap σ))%nat →
  deref σ context = merged_context initial (we_steps execution) →
  let r := walk now setTimeout this workflow context providers fuel current
             execution σ in
  deref (result_state r) context = merged_context initial (result_steps r).
Proof.
  intros Hlt Hctx. cbn zeta.
  apply (walk_rule this workflow context providers
           (λ _ e σ', (context < length (heap σ'))%nat ∧
                      deref σ' context = merged_context initial (we_steps e))
           (λ r, deref (result_state r) context
                 = merged_context initial (result_steps r))).
  - by intros ? ? ? [_ ?] _.
  - by intros ? ? ? ? [_ ?] _ _.
  - intros c stepDef e σ0 step σ1 [Hlt0 Hctx0] _ _ Hstep. cbn zeta.
    pose proof (executeStep_heap this stepDef context providers σ0) as Hheap.
    pose proof (executeStep_output this stepDef context providers σ0 step
                  (f_equal fst Hstep)) as Hout.
    rewrite Hstep in Hheap. cbn [snd] in Hheap.
    assert (deref σ1 context = deref σ0 context) as Hderef
      by (unfold deref; by rewrite Hheap).
    assert (deref (merge_output σ1 context step) context
            = merged_context initial (we_steps e ++ [step])) as Hmerged.
    { rewrite deref_merge_output, merged_context_snoc by (rewrite Hheap; done).
      by rewrite Hderef, Hctx0. }
    split; [|split].
    + intros Hfailed. unfold result_steps. cbn.
      rewrite merged_context_snoc, Hout by congruence. congruence.
    + intros _. split; [|exact Hmerged].
      by rewrite heap_length_merge_output, Hheap.
    + intros _ _. exact Hmerged.
  - intros c stepDef e σ0 error σ1 [Hlt0 Hctx0] _ _ Hstep.
    pose proof (executeStep_heap this stepDef context providers σ0) as Hheap.
    rewrite Hstep in Hheap. cbn [snd] in Hheap.
    unfold result_steps. cbn. rewrite <- Hctx0. unfold deref. by rewrite Hheap.
  - done.
Qed.

Lemma execute_context this fuel executionId workflow initialContext providers σ :
  let r := execute now setTimeout this fuel executionId workflow initialContext
             providers σ in
  deref (result_state r) (length (heap σ))
  = merged_context initialContext (result_steps r).
Proof.
  cbn zeta. rewrite result_steps_execute, result_state_execute.
  pose proof (walk_context this workflow (alloc σ initialContext).1 providers
                initialContext fuel (first_step_id workflow)
                (newExecution now executionId workflow initialContext σ)
                (alloc σ initialContext).2) as H.
  cbn zeta in H. change ((alloc σ initialContext).1) with (length (heap σ)) in *.
  apply H.
  - cbn. rewrite length_app. cbn. lia.
  - apply (deref_alloc σ initialContext).
Qed.

Lemma merged_context_unwritten initial records (k : string) :
  (∀ step out, step ∈ records → ws_output step = Some out → out !! k = None) →
  merged_context initial records !! k = initial !! k.
Proof.
  induction records as [|step records IH] using rev_ind; [done|].
  intros Hnone. rewrite merged_context_snoc.
  assert (merged_context initial records !! k = initial !! k) as Hrec.
  { apply IH. intros s out Hin. apply Hnone, elem_of_app. by left. }
  destruct (ws_output step) as [out|] eqn:Hout; [|done].
  unfold object_assign. rewrite lookup_union_r; [done|].
  eapply Hnone; [|done]. apply elem_of_app. right. by apply list_elem_of_singleton.
Qed.

Lemma merged_context_last_write initial records (k : string) i step out v :
  records !! i = Some step → ws_output step = Some out → out !! k = Some v →
  (∀ j step' out', (i < j)%nat → records !! j = Some step' →
                   ws_output step' = Some out' → out' !! k = None) →
  merged_context initial records !! k = Some v.
Proof.
  revert i. induction records as [|last records IH] using rev_ind; [done|].
  intros i Hi Hout Hk Hlater. rewrite merged_context_snoc.
  apply lookup_snoc_Some in Hi as [[Hlt Hi]|[-> ->]].
  - assert (merged_context initial records !! k = Some v) as Hrec.
    { eapply IH; [done..|]. intros j s' o' Hj Hs'. eapply Hlater; [done|].
      by apply lookup_app_l_Some. }
    destruct (ws_output last) as [out'|] eqn:Hout'; [|done].
    unfold object_assign. rewrite lookup_union_r; [done|].
    eapply (Hlater (length records)); [lia| |done].
    by rewrite list_lookup_middle.
  - rewrite Hout. unfold object_assign. by apply lookup_union_Some_l.
Qed.

(** C7.  Merging is key-wise and the last write wins: at any point of a
    run the context binds a key to the value given by the latest recorded
    output that has the key, and a key that no recorded output has keeps
    the binding (or the absence of one) of the initial context. *)
Theorem context_merge_is_last_write_wins this fuel executionId workflow
    initialContext providers σ (k : string) :
  let r := execute now setTimeout this fuel executionId workflow initialContext
             providers σ in
  let final := deref (result_state r) (length (heap σ)) in
  (∀ i step out v,
      result_steps r !! i = Some step → ws_output step = Some out →
      out !! k = Some v →
      (∀ j step' out', (i < j)%nat → result_steps r !! j = Some step' →
                       ws_output step' = Some out' → out' !! k = None) →
      final !! k = Some v) ∧
  ((∀ step out, step ∈ result_steps r → ws_output step = Some out →
                out !! k = None) →
   final !! k = initialContext !! k).
Proof.
  cbn zeta. rewrite execute_context. split.
  - intros i step out v. apply merged_context_last_write.
  - apply merged_context_unwritten.
Qed.

(** ** Branching *)

Lemma retryLoop_hints e1 e2 stepDef context providers M d :
  (∀ sd c p w, same_up_to_hint (e1 sd c p w) (e2 sd c p w)) →
  ∀ (k : nat) attempts step σ, Z.to_nat (M - attempts) = k →
    retryLoop now setTimeout e1 stepDef context providers M d attempts step σ
    = retryLoop now setTimeout e2 stepDef context providers M d attempts step σ.
Proof.
  intros Hrel k. induction k as [k IH] using lt_wf_ind. intros attempts step σ Hk.
  rewrite (retryLoop_body e1), (retryLoop_body e2).
  destruct (decide (attempts < M)); [|done]. cbn zeta.
  destruct (Hrel stepDef (deref σ context) providers (world σ)) as [Hw Hout].
  destruct (e1 _ _ _ _) as [[res1|m1] w1], (e2 _ _ _ _) as [[res2|m2] w2];
    cbn in Hw, Hout |- *; subst; try done.
  - by rewrite Hout.
  - destruct (decide (M <= attempts + 1)); [done|].
    by apply (IH (Z.to_nat (M - (attempts + 1)))); [lia|].
Qed.

Lemma executeStep_hints this1 this2 stepDef context providers σ :
  engines_differ_only_in_hints this1 this2 →
  executeStep now setTimeout this1 stepDef context providers σ
  = executeStep now setTimeout this2 stepDef context providers σ.
Proof.
  intros Hrel. unfold executeStep. specialize (Hrel (sd_type stepDef)).
  destruct (stepExecutors this1 !! sd_type stepDef) as [e1|],
           (stepExecutors this2 !! sd_type stepDef) as [e2|]; try done.
  by erewrite retryLoop_hints.
Qed.

(** Two walks that run the same steps in the same way. *)
Lemma walk_same_steps this1 this2 workflow context providers :
  (∀ stepDef σ, In stepDef (steps workflow) →
     executeStep now setTimeout this1 stepDef context providers σ
     = executeStep now setTimeout this2 stepDef context providers σ) →
  ∀ fuel current execution σ,
    walk now setTimeout this1 workflow context providers fuel current execution σ
    = walk now setTimeout this2 workflow context providers fuel current execution σ.
Proof.
  intros Hsame. induction fuel as [|fuel IH]; intros current execution σ; [done|].
  destruct current as [c|]; [|done].
  destruct (truthy (VStr c)) eqn:Ht; [|by rewrite !walk_stops by (by left)].
  destruct (find_step workflow c) as [stepDef|] eqn:Hf;
    [|by rewrite !walk_stops by (by right)].
  rewrite !(walk_iteration _ _ _ _ _ _ stepDef) by done. cbn zeta.
  rewrite (Hsame stepDef σ) by (by apply (find_step_In workflow c)).
  destruct ((executeStep _ _ _ _ _ _ _).1) as [step|error]; [|done].
  destruct (decide _); [done|]. destruct (decide _); [|done]. apply IH.
Qed.

Lemma walk_hints this1 this2 workflow context providers fuel :
  engines_differ_only_in_hints this1 this2 →
  ∀ current execution σ,
    walk now setTimeout this1 workflow context providers fuel current execution σ
    = walk now setTimeout this2 workflow context providers fuel current execution σ.
Proof.
  intros Hrel. apply walk_same_steps. intros stepDef σ _.
  by apply executeStep_hints.
Qed.

Lemma forget_hints_differ_only_in_hints this :
  engines_differ_only_in_hints this (forget_hints this).
Proof.
  intros stepType. unfold forget_hints. cbn [stepExecutors].
  rewrite lookup_fmap. destruct (stepExecutors this !! stepType) as [e|]; [|done].
  cbn. intros sd c p w. unfold same_up_to_hint, forget_hint. cbn.
  by destruct ((e sd c p w).1).
Qed.

Lemma continues_on_success this workflow context providers c stepDef execution σ
    step σ1 :
  truthy (VStr c) = true → find_step workflow c = Some stepDef →
  executeStep now setTimeout this stepDef context providers σ = (Ok step, σ1) →
  ws_status step = SUCCESS →
  continues_at now setTimeout this workflow context providers c stepDef
    (onSuccess stepDef) execution σ.
Proof.
  intros Ht Hf Hstep Hs. exists step, σ1. split; [done|]. intros fuel.
  rewrite (walk_iteration_Ok _ _ _ _ _ _ stepDef _ _ step σ1) by done.
  cbn zeta. rewrite Hs. by destruct (decide (SUCCESS = FAILED)).
Qed.

(** C8.  Which step the walk visits next depends on the status of the
    step just run and on the [onSuccess] edge of its definition only:
    after SUCCESS the walk goes on from [onSuccess], after any other
    status it stops with the record just appended (and when the step
    returns no record at all, the walk is over without one).  The
    [nextStepId] an executor returns plays no part: two engines whose
    executors differ at most in that field produce the same run. *)
Theorem next_step_hint_is_ignored this1 this2 fuel executionId workflow
    initialContext providers σ :
  engines_differ_only_in_hints this1 this2 →
  execute now setTimeout this1 fuel executionId workflow initialContext providers σ
  = execute now setTimeout this2 fuel executionId workflow initialContext providers σ
  ∧
  ∀ context c stepDef execution σ0,
    truthy (VStr c) = true → find_step workflow c = Some stepDef →
    let r := executeStep now setTimeout this1 stepDef context providers σ0 in
    match r.1 with
    | Ok step =>
        (ws_status step = SUCCESS →
           continues_at now setTimeout this1 workflow context providers c stepDef
             (onSuccess stepDef) execution σ0) ∧
        (ws_status step ≠ SUCCESS →
           ∀ fuel', ∃ execution' σ',
             walk now setTimeout this1 workflow context providers (S fuel') (Some c)
               execution σ0 = Finished execution' σ' ∧
             we_steps execution' = we_steps execution ++ [step])
    | Throw error =>
        ∀ fuel',
          walk now setTimeout this1 workflow context providers (S fuel') (Some c)
            execution σ0 = Rejected error execution r.2
    end.
Proof.
  intros Hrel. split.
  - unfold execute, executeWorkflowAsync. cbn zeta.
    by rewrite (walk_hints this1 this2).
  - intros context c stepDef execution σ0 Ht Hf. cbn zeta.
    destruct (executeStep now setTimeout this1 stepDef context providers σ0)
      as [[step|error] σ1] eqn:Hstep; cbn [fst snd].
    + split.
      * by eapply continues_on_success.
      * intros Hns fuel'.
        rewrite (walk_iteration_Ok _ _ _ _ _ _ stepDef _ _ step σ1) by done.
        cbn zeta. destruct (decide (ws_status _ = FAILED)); [by eexists _, _|].
        destruct (decide (ws_status _ = SUCCESS)); [done|]. by eexists _, _.
    + intros fuel'. rewrite (walk_iteration _ _ _ _ _ _ stepDef) by done.
      cbn zeta. by rewrite Hstep.
Qed.

(** A step whose first attempt returns. *)
Lemma executeStep_first_attempt this stepDef context providers σ executor result :
  stepExecutors this !! sd_type stepDef = Some executor →
  retry_enabled stepDef →
  (executor stepDef (deref σ context) providers (world σ)).1 = Ok result →
  let w' := (executor stepDef (deref σ context) providers (world σ)).2 in
  executeStep now setTimeout this stepDef context providers σ
  = (Ok (step_succeeded (new_step stepDef context (now (world σ))) (output result)
           (now w')),
     emit (set_world σ w') (EvInvoke (sd_id stepDef) None)).
Proof.
  intros Hex Hretry Hok. cbn zeta. unfold executeStep. rewrite Hex.
  set (M := num_or _ 1).
  assert (0 < M) as HM.
  { unfold M. destruct (retry stepDef) as [r|] eqn:Hr; cbn; [|lia].
    specialize (Hretry r Hr). destruct (maxAttempts r =? 0) eqn:?; lia. }
  rewrite retryLoop_body. destruct (decide (0 < M)); [|lia].
  cbn zeta. by rewrite Hok.
Qed.

(** The walk only ever appends to the step sequence. *)
Lemma walk_steps_prefix this workflow context providers fuel current execution σ :
  we_steps execution `prefix_of`
  result_steps (walk now setTimeout this workflow context providers fuel current
                  execution σ).
Proof.
  apply (walk_rule this workflow context providers
           (λ _ e _, we_steps execution `prefix_of` we_steps e)
           (λ r, we_steps execution `prefix_of` result_steps r)).
  - by intros.
  - by intros.
  - intros c stepDef e σ0 step σ1 HI _ _ _. cbn zeta.
    assert (we_steps execution `prefix_of` we_steps e ++ [step])
      by (by apply prefix_app_r).
    by repeat split.
  - by intros.
  - done.
Qed.


(** C5, as the code has it.  A webhook step that has a URL, whose retry
    policy (if any) does not disable it, and whose delivery throws an
    error other than [null] or [undefined], does not fail: after a
    single invocation of the executor (no retry is spent and no timer
    set: the world is the one the delivery left) the step has status
    SUCCESS, no error and output [{success: false, error: message}].  Its
    record is appended to the execution's step sequence; the execution's
    status, error and completion time are left as they were; and the walk
    continues at the step's [onSuccess] edge, ending there when the edge
    is unset. *)
Theorem failed_delivery_is_swallowed this workflow context providers c stepDef
    execution σ error :
  stepExecutors this !! "webhook" = Some (WebhookStepExecutor now (webhookCaller this)) →
  sd_type stepDef = "webhook" →
  retry_enabled stepDef →
  truthy (VStr c) = true → find_step workflow c = Some stepDef →
  delivery_fails now this stepDef (deref σ context) (world σ) error →
  nullish error = false →
  ∃ step σ1 execution1,
    executeStep now setTimeout this stepDef context providers σ = (Ok step, σ1) ∧
    ws_status step = SUCCESS ∧
    ws_output step = Some (list_to_map [("success", VBool false);
                                        ("error", opt_prop error "message")]) ∧
    ws_error step = VUndefined ∧
    log σ1 = log σ ++ [EvInvoke (sd_id stepDef) None] ∧
    world σ1 = (webhookCaller this (webhook_url stepDef (deref σ context))
                  (webhook_payload now stepDef (deref σ context) (world σ))
                  (world σ)).2 ∧
    we_steps execution1 = we_steps execution ++ [step] ∧
    we_status execution1 = we_status execution ∧
    we_error execution1 = we_error execution ∧
    we_completedAt execution1 = we_completedAt execution ∧
    (∀ fuel,
       walk now setTimeout this workflow context providers (S fuel) (Some c)
         execution σ
       = walk now setTimeout this workflow context providers fuel (onSuccess stepDef)
           execution1 (merge_output σ1 context step)) ∧
    (∀ fuel,
       (we_steps execution ++ [step]) `prefix_of`
       result_steps (walk now setTimeout this workflow context providers (S fuel)
                       (Some c) execution σ)) ∧
    (onSuccess stepDef = None →
     ∀ fuel, walk now setTimeout this workflow context providers (S fuel) (Some c)
               execution σ
             = Finished execution1 (merge_output σ1 context step)).
Proof.
  intros Hex Htype Hretry Ht Hf [Hurl Hthrow] Hnull.
  rewrite <- Htype in Hex.
  set (delivery := webhookCaller this (webhook_url stepDef (deref σ context))
                     (webhook_payload now stepDef (deref σ context) (world σ))
                     (world σ)) in *.
  assert (WebhookStepExecutor now (webhookCaller this) stepDef (deref σ context)
            providers (world σ)
          = (Ok {| output := Some (list_to_map
                     [("success", VBool false); ("error", opt_prop error "message")]);
                   nextStepId := onFailure stepDef |}, delivery.2)) as Hrun.
  { unfold WebhookStepExecutor. cbn zeta. rewrite Hurl. cbn [negb].
    fold delivery. destruct delivery as [[u|e] w'];
      cbn [fst] in Hthrow; [discriminate Hthrow|].
    injection Hthrow as ->. by rewrite (read_message_Ok error Hnull). }
  pose proof (executeStep_first_attempt this stepDef context providers σ _ _
                Hex Hretry (f_equal fst Hrun)) as Hstep.
  cbn zeta in Hstep. rewrite Hrun in Hstep. cbn [fst snd output] in Hstep.
  pose proof (continues_on_success this workflow context providers c stepDef
                execution σ _ _ Ht Hf Hstep eq_refl) as (step' & σ1' & Hstep' & Hcont).
  rewrite Hstep in Hstep'. injection Hstep' as <- <-.
  eexists _, _, (push_step execution _). split; [exact Hstep|].
  do 9 (split; [done|]). split; [exact Hcont|]. split.
  - intros fuel. rewrite (Hcont fuel).
    match goal with
    | |- _ `prefix_of` result_steps (walk _ _ _ _ _ _ _ _ ?e ?s) =>
        apply (walk_steps_prefix this workflow context providers fuel
                 (onSuccess stepDef) e s)
    end.
  - intros Hnone fuel. rewrite (Hcont fuel), Hnone. by destruct fuel.
Qed.

(** Every record's [input] is the context object itself. *)
Lemma recorded_inputs_alias_context this fuel executionId workflow initialContext
    providers σ :
  Forall (λ s, ws_input s = Some (length (heap σ)))
    (result_steps (execute now setTimeout this fuel executionId workflow
                     initialContext providers σ)).
Proof.
  rewrite result_steps_execute.
  apply (walk_rule this workflow _ providers
           (λ _ execution _,
              Forall (λ s, ws_input s = Some (length (heap σ))) (we_steps execution))
           (λ r, Forall (λ s, ws_input s = Some (length (heap σ))) (result_steps r))).
  - by intros.
  - by intros.
  - intros c stepDef execution σ0 step σ1 HI Ht Hf Hstep. cbn zeta.
    assert (Forall (λ s, ws_input s = Some (length (heap σ)))
              (we_steps execution ++ [step])) as Hall.
    { apply Forall_app. split; [done|]. apply Forall_singleton.
      by eapply executeStep_input, (f_equal fst Hstep). }
    by repeat split.
  - by intros.
  - by constructor.
Qed.

End Properties.

(** * Concrete runs *)


Lemma zero_max_attempts_is_default_witness :
  let r := executeStep Demo.now Demo.setTimeout Demo.custom_engine
             Demo.zero_attempts 0%nat Demo.couriers (Demo.loop_state ∅) in
  r = executeStep_once Demo.now Demo.custom_engine Demo.zero_attempts 0%nat
        Demo.couriers (Demo.loop_state ∅) ∧
  (is_Some (stepExecutors Demo.custom_engine !! sd_type Demo.zero_attempts) →
   ∃ outcome, log r.2 = log (Demo.loop_state ∅) ++ [EvInvoke (sd_id Demo.zero_attempts) outcome]).
Proof.
  apply (zero_max_attempts_is_default Demo.now Demo.setTimeout Demo.custom_engine
           Demo.zero_attempts 0%nat Demo.couriers (Demo.loop_state ∅)).
  right. exists 50. reflexivity.
Defined.

Lemma recorded_steps_are_terminal_witness :
  Forall terminal (result_steps (Demo.run 10 Demo.engine Demo.webhooks ∅)).
Proof.
  apply (recorded_steps_are_terminal Demo.now Demo.setTimeout Demo.engine 10
           "exec-1" Demo.webhooks ∅ Demo.couriers Demo.start).
  repeat (constructor;
          [intros r Hr; vm_compute in Hr;
           first [discriminate Hr | injection Hr as <-; cbn; lia]|]).
  constructor.
Defined.

(** The failing run of the demonstration: its only record is the failed
    step, although the step has an [onFailure] edge. *)
Lemma failed_step_fails_execution_witness :
  ∃ step execution' σ' earlier,
    Demo.run 10 Demo.custom_engine Demo.failing ∅ = Finished execution' σ' ∧
    we_steps execution' = earlier ++ [step] ∧
    Forall (λ s, ws_status s = SUCCESS) earlier ∧
    we_status execution' = FAILED ∧
    we_error execution' = ws_error step ∧
    we_completedAt execution' = Some (Demo.now (world σ')).
Proof.
  eexists.
  apply (failed_step_fails_execution Demo.now Demo.setTimeout Demo.custom_engine 10
           "exec-1" Demo.failing ∅ Demo.couriers Demo.start).
  - apply (list_elem_of_lookup_2 _ 0%nat). reflexivity.
  - reflexivity.
Defined.

Lemma dangling_success_edge_ends_in_success_witness :
  ∃ execution' σ',
    Demo.run 10 Demo.custom_engine Demo.dangling ∅ = Finished execution' σ' ∧
    length (we_steps execution') = 1%nat ∧
    we_status execution' = SUCCESS ∧
    we_error execution' = VUndefined ∧
    we_completedAt execution' = Some (Demo.now (world σ')).
Proof.
  eapply (dangling_success_edge_ends_in_success Demo.now Demo.setTimeout
            Demo.custom_engine 10 "exec-1" Demo.dangling ∅ Demo.couriers Demo.start
            0%nat _ _ "nowhere").
  - vm_compute. reflexivity.
  - reflexivity.
  - vm_compute. reflexivity.
  - reflexivity.
  - vm_compute. intros H.
    repeat (apply elem_of_cons in H as [H|H]; [discriminate H|]).
    by apply elem_of_nil in H.
Defined.

(** Step A writes [x = 1], step B writes [x = 2]: the context ends with
    [x = 2], and [y], which no step writes, keeps its initial value. *)
Lemma context_merge_is_last_write_wins_witness :
  let final := deref (result_state (Demo.run 10 Demo.custom_engine Demo.write_twice
                                      Demo.x_is_zero)) 0%nat in
  final !! "x" = Some (VNum 2) ∧ final !! "y" = Demo.x_is_zero !! "y".
Proof.
  split.
  - eapply (proj1 (context_merge_is_last_write_wins Demo.now Demo.setTimeout
                     Demo.custom_engine 10 "exec-1" Demo.write_twice Demo.x_is_zero
                     Demo.couriers Demo.start "x") 1%nat).
    + vm_compute. reflexivity.
    + reflexivity.
    + reflexivity.
    + intros j step' out' Hj Hlookup. vm_compute in Hlookup.
      destruct j as [|[|j]]; [lia|lia|discriminate Hlookup].
  - apply (proj2 (context_merge_is_last_write_wins Demo.now Demo.setTimeout
                    Demo.custom_engine 10 "exec-1" Demo.write_twice Demo.x_is_zero
                    Demo.couriers Demo.start "y")).
    intros step out Hin Hout. vm_compute in Hin.
    repeat (apply elem_of_cons in Hin as [->|Hin];
            [injection Hout as <-; reflexivity|]).
    by apply elem_of_nil in Hin.
Defined.

(** The built-in executors with their hints erased give the same run. *)
Lemma next_step_hint_is_ignored_witness :
  Demo.run 10 Demo.engine Demo.free_shipping Demo.order_context
  = execute Demo.now Demo.setTimeout (forget_hints Demo.engine) 10 "exec-1"
      Demo.free_shipping Demo.order_context Demo.couriers Demo.start.
Proof.
  apply (proj1 (next_step_hint_is_ignored Demo.now Demo.setTimeout Demo.engine
                  (forget_hints Demo.engine) 10 "exec-1" Demo.free_shipping
                  Demo.order_context Demo.couriers Demo.start
                  (forget_hints_differ_only_in_hints Demo.engine))).
Defined.

(** C4 does not hold of the code.  The courier of the demonstration has
    no free-shipping check; the step's [onSuccess] is ["found"] and its
    [onFailure] is ["missing"].  The premises of the claim hold and the
    executor returns the hint ["missing"], but the step is SUCCESS and
    the walk reads [onSuccess]: it does not continue at ["missing"], the
    run records ["check"] and then ["found"]. *)
Theorem unsupported_free_shipping_skips_onFailure :
  stepExecutors Demo.engine !! "check_free_shipping"
    = Some CheckFreeShippingStepExecutor ∧
  find_step Demo.free_shipping "check" = Some Demo.check_step ∧
  free_shipping_unsupported Demo.check_step
    (deref (Demo.loop_state Demo.order_context) 0%nat) Demo.couriers ∧
  (CheckFreeShippingStepExecutor Demo.check_step Demo.order_context Demo.couriers
     (world Demo.start)).1
    = Ok {| output := Some {[ "notification" := VNull ]};
            nextStepId := Some "missing" |} ∧
  ¬ continues_at Demo.now Demo.setTimeout Demo.engine Demo.free_shipping 0%nat
      Demo.couriers "check" Demo.check_step (onFailure Demo.check_step)
      (Demo.loop_execution Demo.free_shipping Demo.order_context)
      (Demo.loop_state Demo.order_context) ∧
  ∃ execution σ',
    Demo.run 10 Demo.engine Demo.free_shipping Demo.order_context
      = Finished execution σ' ∧
    ws_id <$> we_steps execution = ["check"; "found"] ∧
    ws_status <$> we_steps execution = [SUCCESS; SUCCESS].
Proof.
  split; [reflexivity|]. split; [reflexivity|]. split; [|split; [reflexivity|split]].
  - split; [reflexivity|]. split; [reflexivity|].
    exists Demo.plain_courier. split; reflexivity.
  - intros (step & σ1 & _ & H). specialize (H 5%nat).
    apply (f_equal (λ r, ws_id <$> result_steps r)) in H.
    vm_compute in H. discriminate H.
  - eexists _, _. split; [vm_compute; reflexivity|]. split; reflexivity.
Qed.

(** The first webhook of the demonstration is refused and allows three
    attempts; it is recorded as a success after one invocation. *)
Lemma failed_delivery_is_swallowed_witness :
  let σ := Demo.loop_state ∅ in
  let execution := Demo.loop_execution Demo.webhooks ∅ in
  ∃ step σ1 execution1,
    executeStep Demo.now Demo.setTimeout Demo.engine Demo.hook_step 0%nat
      Demo.couriers σ = (Ok step, σ1) ∧
    ws_status step = SUCCESS ∧
    ws_output step = Some (list_to_map [("success", VBool false);
                                        ("error", VStr "connection refused")]) ∧
    ws_error step = VUndefined ∧
    log σ1 = log σ ++ [EvInvoke (sd_id Demo.hook_step) None] ∧
    world σ1 = {| Demo.clock := 1; Demo.deliveries := 1 |} ∧
    we_steps execution1 = we_steps execution ++ [step] ∧
    we_status execution1 = we_status execution ∧
    we_error execution1 = we_error execution ∧
    we_completedAt execution1 = we_completedAt execution ∧
    (∀ fuel,
       walk Demo.now Demo.setTimeout Demo.engine Demo.webhooks 0%nat Demo.couriers
         (S fuel) (Some "s2") execution σ
       = walk Demo.now Demo.setTimeout Demo.engine Demo.webhooks 0%nat Demo.couriers
           fuel (onSuccess Demo.hook_step) execution1 (merge_output σ1 0%nat step)) ∧
    (∀ fuel,
       (we_steps execution ++ [step]) `prefix_of`
       result_steps (walk Demo.now Demo.setTimeout Demo.engine Demo.webhooks 0%nat
                       Demo.couriers (S fuel) (Some "s2") execution σ)) ∧
    (onSuccess Demo.hook_step = None →
     ∀ fuel, walk Demo.now Demo.setTimeout Demo.engine Demo.webhooks 0%nat Demo.couriers
               (S fuel) (Some "s2") execution σ
             = Finished execution1 (merge_output σ1 0%nat step)).
Proof.
  apply (failed_delivery_is_swallowed Demo.now Demo.setTimeout Demo.engine
           Demo.webhooks 0%nat Demo.couriers "s2" Demo.hook_step
           (Demo.loop_execution Demo.webhooks ∅) (Demo.loop_state ∅)
           (new_Error "connection refused")).
  - reflexivity.
  - reflexivity.
  - intros r Hr. injection Hr as <-. cbn. lia.
  - reflexivity.
  - reflexivity.
  - split; reflexivity.
  - reflexivity.
Defined.

(** C5 as stated fails, in two ways.  With a retry policy whose
    [maxAttempts] is negative the premises of the claim hold (the step
    has a URL and the delivery would throw), but the executor is never
    invoked and the step is recorded RUNNING, without output.  And a
    delivery that rejects with [null] makes the executor itself fail: its
    [catch] block throws on reading the message, every retry is spent,
    and the step is FAILED. *)
Lemma failed_delivery_is_not_always_swallowed :
  (stepExecutors Demo.engine !! "webhook"
     = Some (WebhookStepExecutor Demo.now (webhookCaller Demo.engine)) ∧
   delivery_fails Demo.now Demo.engine Fixtures.hook_disabled
     (deref (Demo.loop_state ∅) 0%nat) (world (Demo.loop_state ∅))
     (new_Error "connection refused") ∧
   ∃ step σ1,
     executeStep Demo.now Demo.setTimeout Demo.engine Fixtures.hook_disabled 0%nat
       Demo.couriers (Demo.loop_state ∅) = (Ok step, σ1) ∧
     ws_status step = RUNNING ∧ ws_output step = None ∧
     log σ1 = log (Demo.loop_state ∅)) ∧
  (stepExecutors Fixtures.odd_engine !! "webhook"
     = Some (WebhookStepExecutor Demo.now (webhookCaller Fixtures.odd_engine)) ∧
   delivery_fails Demo.now Fixtures.odd_engine Demo.hook_step
     (deref (Demo.loop_state ∅) 0%nat) (world (Demo.loop_state ∅)) VNull ∧
   ∃ step σ1,
     executeStep Demo.now Demo.setTimeout Fixtures.odd_engine Demo.hook_step 0%nat
       Demo.couriers (Demo.loop_state ∅) = (Ok step, σ1) ∧
     ws_status step = FAILED ∧ ws_output step = None ∧
     ws_error step = VStr (cannot_read VNull "message") ∧
     length (invocation_outcomes (log σ1)) = 3%nat).
Proof.
  split.
  - split; [reflexivity|]. split; [split; reflexivity|].
    eexists _, _. split; [vm_compute; reflexivity|]. by repeat split.
  - split; [reflexivity|]. split; [split; reflexivity|].
    eexists _, _. split; [vm_compute; reflexivity|]. by repeat split.
Defined.

(** C6 does not hold of the code.  In the run where step A writes
    [x = 1] and step B writes [x = 2] over an initial [x = 0]: when A is
    about to start, the context maps [x] to 0; A's record refers to the
    context object, and reading it when B is about to start gives
    [x = 1], and after the run [x = 2]. *)
Theorem recorded_input_follows_later_writes :
  ∃ execution0 σ0 execution1 σ1 execution σ' a b,
    Demo.run 0 Demo.custom_engine Demo.write_twice Demo.x_is_zero
      = Suspended "A" execution0 σ0 ∧
    deref σ0 0%nat !! "x" = Some (VNum 0) ∧
    Demo.run 1 Demo.custom_engine Demo.write_twice Demo.x_is_zero
      = Suspended "B" execution1 σ1 ∧
    we_steps execution1 = [a] ∧
    ws_input a = Some 0%nat ∧
    deref σ1 0%nat !! "x" = Some (VNum 1) ∧
    Demo.run 10 Demo.custom_engine Demo.write_twice Demo.x_is_zero
      = Finished execution σ' ∧
    we_steps execution = [a; b] ∧
    deref σ' 0%nat !! "x" = Some (VNum 2).
Proof.
  do 8 eexists.
  split; [vm_compute; reflexivity|]. split; [reflexivity|].
  split; [vm_compute; reflexivity|]. split; [reflexivity|].
  split; [reflexivity|]. split; [reflexivity|].
  split; [vm_compute; reflexivity|]. split; [reflexivity|]. reflexivity.
Qed.

(** * Further properties of the engine *)

Section MoreProperties.

Context {W : Type} (now : W → Z) (setTimeout : Value → W → W).

Implicit Types (σ : State (W:=W)) (step : WorkflowStep)
  (stepDef : WorkflowStepDefinition) (execution : WorkflowExecution)
  (this : WorkflowEngine (W:=W)) (providers : gmap string (IProvider (W:=W)))
  (executor : IStepExecutor (W:=W)) (workflow : WorkflowDefinition)
  (context : loc).

(** ** Attempts *)

Lemma attempt_events_cons stepId d o o' outcomes :
  attempt_events stepId d (o :: o' :: outcomes)
  = EvInvoke stepId o ::
    (if decide (0 < d) then [EvBackoff d] else []) ++
    attempt_events stepId d (o' :: outcomes).
Proof. reflexivity. Qed.

Lemma invocation_outcomes_attempts stepId d outcomes :
  invocation_outcomes (attempt_events stepId d outcomes) = outcomes.
Proof.
  induction outcomes as [|o outcomes IH]; [done|].
  destruct outcomes as [|o' outcomes]; [done|].
  rewrite attempt_events_cons.
  destruct (decide (0 < d)); cbn [invocation_outcomes app]; by rewrite IH.
Qed.

Lemma waits_after_attempts stepId d outcomes :
  0 ≤ d →
  waits_after (if decide (0 < d) then d else 0) (attempt_events stepId d outcomes)
  = replicate (length outcomes) d.
Proof.
  intros Hd. induction outcomes as [|o outcomes IH]; [done|].
  assert ((if decide (0 < d) then d else 0) = d) as Hd'
    by (destruct (decide (0 < d)); lia).
  destruct outcomes as [|o' outcomes]; [cbn; by rewrite Hd'|].
  rewrite attempt_events_cons. cbn [waits_after length replicate].
  rewrite Hd'. f_equal.
  destruct (decide (0 < d)); cbn [app waits_after]; rewrite ?Z.add_0_l; exact IH.
Qed.

Lemma waits_between_attempts stepId d outcomes :
  0 ≤ d →
  waits_between (attempt_events stepId d outcomes)
  = replicate (length outcomes - 1) d.
Proof.
  intros Hd. destruct outcomes as [|o outcomes]; [done|].
  destruct outcomes as [|o' outcomes]; [done|].
  rewrite attempt_events_cons. cbn [waits_between].
  change (length (o :: o' :: outcomes) - 1)%nat with (length (o' :: outcomes)).
  rewrite <- (waits_after_attempts stepId d (o' :: outcomes) Hd).
  destruct (decide (0 < d)); reflexivity.
Qed.

(** Every way the retry loop can end, with the attempts it made and the
    world they leave. *)
Lemma retryLoop_trace executor stepDef context providers M d (contextObj : Obj) :
  ∀ (k : nat) attempts step σ,
    deref σ context = contextObj →
    Z.to_nat (M - attempts) = k →
    let r := retryLoop now setTimeout executor stepDef context providers M d
               attempts step σ in
    let call := λ w, (executor stepDef contextObj providers w).2 in
    ∃ thrown,
      (k = 0%nat ∧ thrown = [] ∧ r = (Ok step, σ)) ∨
      ((length thrown < k)%nat ∧
       (∃ out, r.1 = Ok (step_succeeded step out (now (world r.2)))) ∧
       log r.2 = log σ ++ attempt_events (sd_id stepDef) d
                            ((Some <$> thrown) ++ [None]) ∧
       world r.2 = attempts_world call (back_off setTimeout d) (S (length thrown))
                     (world σ)) ∨
      (length thrown = k ∧ (0 < k)%nat ∧
       (∃ final, last thrown = Some final ∧ r.1 = Throw final) ∧
       log r.2 = log σ ++ attempt_events (sd_id stepDef) d (Some <$> thrown) ∧
       world r.2 = attempts_world call (back_off setTimeout d) (length thrown)
                     (world σ)).
Proof.
  induction k as [k IH] using lt_wf_ind. intros attempts step σ Hobj Hk. cbn zeta.
  rewrite retryLoop_body. destruct (decide (attempts < M)) as [Hlt|Hge].
  2:{ exists []. left. split; [lia|done]. }
  cbn zeta. rewrite Hobj.
  destruct ((executor _ _ _ _).1) as [result|e] eqn:Hcall.
  { exists []. right. left. split; [cbn; lia|]. split; [by eexists|done]. }
  destruct (decide (M <= attempts + 1)) as [Hend|Hmore].
  { exists [e]. right. right. split; [cbn; lia|]. split; [lia|].
    split; [by exists e|done]. }
  match goal with |- context [retryLoop _ _ _ _ _ _ _ _ _ _ ?s] => set (σ2 := s) end.
  assert (log σ2 = log σ ++ EvInvoke (sd_id stepDef) (Some e) ::
                     (if decide (0 < d) then [EvBackoff d] else [])) as Hlog2.
  { unfold σ2. destruct (decide (0 < d)); cbn; by rewrite <- ?app_assoc. }
  assert (world σ2 = back_off setTimeout d
                       (executor stepDef contextObj providers (world σ)).2) as Hworld2.
  { unfold σ2, back_off. by destruct (decide (0 < d)). }
  assert (deref σ2 context = contextObj) as Hobj2.
  { unfold σ2. by destruct (decide (0 < d)). }
  destruct (IH (Z.to_nat (M - (attempts + 1))) ltac:(lia) (attempts + 1) step σ2
              Hobj2 eq_refl)
    as (es & [(Hk0 & _)|[(Hlen & Hok & Hlog & Hw)|(Hlen & Hpos & Hthrow & Hlog & Hw)]]);
    [lia| |].
  - exists (e :: es). right. left. split; [cbn; lia|]. split; [done|]. split.
    + rewrite Hlog, Hlog2, <- app_assoc. f_equal. destruct es; reflexivity.
    + rewrite Hw, Hworld2. cbn [length]. by rewrite attempts_world_succ.
  - exists (e :: es). right. right. split; [cbn; lia|]. split; [lia|]. split; [|split].
    + destruct Hthrow as (final & Hlast & Hr). exists final. split; [|done].
      destruct es; [done|]. exact Hlast.
    + rewrite Hlog, Hlog2, <- app_assoc. f_equal.
      destruct es; [cbn in Hlen; lia|reflexivity].
    + rewrite Hw, Hworld2. destruct es as [|e' es]; [cbn in Hlen; lia|].
      cbn [length]. by rewrite attempts_world_succ.
Qed.

(** X1.  Whatever the executor does, a step makes at most the number of
    attempts its retry policy resolves to, stops at the first attempt
    that returns, and spends the configured delay in back-off between
    consecutive attempts; the world it leaves is the one reached through
    that many calls of the executor with the back-off timer between each
    two.  When the policy allows no attempt (a negative [maxAttempts])
    nothing is invoked and the record is returned as created, RUNNING.
    Otherwise the record is SUCCESS when the last attempt returned; when
    all the allowed attempts threw, it is FAILED with the message of the
    last error, unless that last thrown value is [null] or [undefined],
    in which case the method rejects. *)
Theorem retry_budget_is_respected this stepDef context providers σ executor :
  stepExecutors this !! sd_type stepDef = Some executor →
  let M := num_or (maxAttempts <$> retry stepDef) 1 in
  let d := num_or (delay <$> retry stepDef) 0 in
  let r := executeStep now setTimeout this stepDef context providers σ in
  let call := λ w, (executor stepDef (deref σ context) providers w).2 in
  ∃ thrown events,
    log r.2 = log σ ++ events ∧
    (length (invocation_outcomes events) ≤ Z.to_nat M)%nat ∧
    (0 ≤ d → waits_between events
             = replicate (length (invocation_outcomes events) - 1) d) ∧
    world r.2 = attempts_world call (back_off setTimeout d)
                  (length (invocation_outcomes events)) (world σ) ∧
    ((0 < M ∧
      invocation_outcomes events = (Some <$> thrown) ++ [None] ∧
      ∃ step, r.1 = Ok step ∧ ws_status step = SUCCESS) ∨
     (0 < M ∧
      invocation_outcomes events = Some <$> thrown ∧
      length thrown = Z.to_nat M ∧
      ∃ final, last thrown = Some final ∧
        match r.1 with
        | Ok step => nullish final = false ∧ ws_status step = FAILED ∧
                     ws_error step = opt_prop final "message"
        | Throw e => nullish final = true ∧
                     e = new_Error (cannot_read final "message")
        end) ∨
     (M ≤ 0 ∧ events = [] ∧
      r.1 = Ok (new_step stepDef context (now (world σ))) ∧
      ws_status (new_step stepDef context (now (world σ))) = RUNNING)).
Proof.
  intros Hex. cbn zeta. unfold executeStep. rewrite Hex.
  set (M := num_or _ 1). set (d := num_or _ 0). set (step := new_step _ _ _).
  destruct (retryLoop_trace executor stepDef context providers M d _
              (Z.to_nat (M - 0)) 0 step σ eq_refl eq_refl)
    as (es & [(Hk0 & _ & Hr)|[(Hlen & [out Hok] & Hlog & Hw)
                              |(Hlen & Hpos & Hthrow & Hlog & Hw)]]).
  - rewrite Hr. exists [], []. cbn. rewrite app_nil_r.
    split; [done|]. split; [lia|]. split; [done|]. split; [done|]. right. right.
    repeat split; try done. lia.
  - destruct (retryLoop _ _ _ _ _ _ _ _ _ _ _) as [[s'|e'] σ'];
      cbn in Hok, Hlog, Hw |- *; [|done]. injection Hok as ->.
    exists es. eexists. split; [exact Hlog|].
    rewrite invocation_outcomes_attempts, length_app, length_fmap.
    cbn [length]. rewrite Nat.add_1_r.
    split; [lia|]. split.
    { intros Hd. rewrite waits_between_attempts by done.
      by rewrite length_app, length_fmap, Nat.add_1_r. }
    split; [exact Hw|]. left. split; [lia|]. split; [done|]. by eexists.
  - destruct Hthrow as (final & Hlast & Hr).
    destruct (retryLoop _ _ _ _ _ _ _ _ _ _ _) as [[s'|e'] σ'];
      cbn in Hr, Hlog, Hw |- *; [done|]. injection Hr as ->.
    assert ((step_caught now step final σ').2 = σ') as Hσ
      by (unfold step_caught; by destruct (read_message final)).
    exists es. eexists. rewrite Hσ. split; [exact Hlog|].
    rewrite invocation_outcomes_attempts, length_fmap.
    split; [lia|]. split.
    { intros Hd. rewrite waits_between_attempts by done. by rewrite length_fmap. }
    split; [exact Hw|]. right. left. split; [lia|]. split; [done|]. split; [lia|].
    exists final. split; [done|].
    destruct (step_caught_cases now step final σ') as [[Hn ->]|[Hn ->]]; by cbn.
Qed.

(** ** Registered executors *)

Lemma default_executors (caller : WebhookCaller (W:=W)) (stepType : string) :
  stepExecutors (newWorkflowEngine now setTimeout caller) !! stepType
  = if decide (stepType = "delay") then Some (DelayStepExecutor setTimeout)
    else if decide (stepType = "webhook") then Some (WebhookStepExecutor now caller)
    else if decide (stepType = "check_free_shipping")
         then Some CheckFreeShippingStepExecutor
    else if decide (stepType = "query_order") then Some QueryOrderStepExecutor
    else if decide (stepType = "create_order") then Some CreateOrderStepExecutor
    else None.
Proof.
  unfold newWorkflowEngine, registerDefaultExecutors, registerExecutor.
  cbn [stepExecutors webhookCaller].
  rewrite !lookup_insert, lookup_empty.
  repeat (destruct (decide _); [subst; try done|]); try done.
Qed.

(** X2.  The engine as constructed has executors for five step types
    only.  A step of any other type (the definition allows
    ["condition"]) fails at once: no executor is invoked, nothing is
    retried whatever the retry policy says, the state is left as it was,
    and the record carries the message naming the type. *)
Theorem unknown_step_type_fails (caller : WebhookCaller (W:=W)) stepDef context
    providers σ :
  sd_type stepDef ∉ ["create_order"; "query_order"; "check_free_shipping";
                     "webhook"; "delay"] →
  executeStep now setTimeout (newWorkflowEngine now setTimeout caller) stepDef
    context providers σ
  = (Ok (step_failed (new_step stepDef context (now (world σ)))
           (VStr ("No executor found for step type: " +:+ sd_type stepDef))
           (now (world σ))), σ).
Proof.
  intros Hnot. unfold executeStep. rewrite default_executors.
  repeat (destruct (decide _) as [Heq|_];
          [exfalso; apply Hnot; rewrite Heq; set_solver|]).
  reflexivity.
Qed.

(** ** Runs that execute nothing, or nothing of a step *)

Lemma find_step_head workflow stepDef rest :
  steps workflow = stepDef :: rest →
  find_step workflow (sd_id stepDef) = Some stepDef.
Proof. intros H. unfold find_step. rewrite H. cbn. by rewrite String.eqb_refl. Qed.

(** X3.  A workflow without steps, or whose first step has the empty id,
    runs nothing: for any number of iterations the execution finishes
    with status SUCCESS, an empty step sequence and its completion time,
    and nothing is invoked. *)
Theorem nothing_to_run this fuel executionId workflow initialContext providers σ :
  truthy_id (first_step_id workflow) = false →
  ∃ execution',
    execute now setTimeout this fuel executionId workflow initialContext providers σ
    = Finished execution' (alloc σ initialContext).2 ∧
    we_status execution' = SUCCESS ∧
    we_steps execution' = [] ∧
    we_error execution' = VUndefined ∧
    we_completedAt execution' = Some (now (world σ)) ∧
    log (alloc σ initialContext).2 = log σ.
Proof.
  intros Hfalsy. unfold execute, executeWorkflowAsync. cbn zeta.
  rewrite walk_stops.
  - eexists. split; [reflexivity|]. done.
  - destruct (first_step_id workflow) as [c|]; [|done]. by left.
Qed.


(** ** More iterations *)

(** A walk granted [fuel + n] iterations is the walk granted [fuel],
    resumed for [n] more if it was still going. *)
Lemma walk_add this workflow context providers fuel n :
  ∀ current execution σ,
    walk now setTimeout this workflow context providers (fuel + n) current execution σ
    = match walk now setTimeout this workflow context providers fuel current
              execution σ with
      | Suspended c e σ' =>
          walk now setTimeout this workflow context providers n (Some c) e σ'
      | ended => ended
      end.
Proof.
  induction fuel as [|fuel IH]; intros current execution σ.
  - cbn [Nat.add]. destruct current as [c|]; [|by rewrite !walk_stops].
    destruct (truthy (VStr c)) eqn:Ht; [|by rewrite !walk_stops by (by left)].
    destruct (find_step workflow c) as [stepDef|] eqn:Hf;
      [|by rewrite !walk_stops by (by right)].
    by rewrite (walk_suspends now setTimeout this workflow context providers c stepDef).
  - cbn [Nat.add]. destruct current as [c|]; [|by rewrite !walk_stops].
    destruct (truthy (VStr c)) eqn:Ht; [|by rewrite !walk_stops by (by left)].
    destruct (find_step workflow c) as [stepDef|] eqn:Hf;
      [|by rewrite !walk_stops by (by right)].
    rewrite !(walk_iteration now setTimeout this workflow context providers _ c stepDef)
      by done.
    cbn zeta. destruct ((executeStep _ _ _ _ _ _ _).1) as [step|error]; [|done].
    destruct (decide _); [done|]. destruct (decide _); [|done]. apply IH.
Qed.

(** X5.  The step sequence is append-only and a finished run stays as it
    is: what is recorded after some iterations of the walk is a prefix of
    what is recorded after more of them, and once the walk has left its
    loop further iterations change nothing. *)
Theorem run_is_append_only this fuel n executionId workflow initialContext providers σ :
  let earlier := execute now setTimeout this fuel executionId workflow
                   initialContext providers σ in
  let later := execute now setTimeout this (fuel + n) executionId workflow
                 initialContext providers σ in
  result_steps earlier `prefix_of` result_steps later ∧
  (∀ execution' σ', earlier = Finished execution' σ' → later = earlier).
Proof.
  cbn zeta. rewrite !(result_steps_execute now setTimeout).
  unfold execute, executeWorkflowAsync. cbn zeta. rewrite walk_add.
  destruct (walk now setTimeout this workflow _ providers fuel _ _ _)
    as [e σ'|c e σ'|err e σ'] eqn:Hw.
  - split; [done|]. by intros.
  - split; [apply (walk_steps_prefix now setTimeout)|]. by intros.
  - split; [done|]. by intros.
Qed.

(** ** The heap *)

(** X6.  A run allocates exactly one object, its own copy of the initial
    context, and writes to no other: every object that was in the heap
    before the run (the context of an earlier run, say) is unchanged
    after any number of iterations. *)
Theorem run_touches_only_its_context this fuel executionId workflow initialContext
    providers σ :
  let r := execute now setTimeout this fuel executionId workflow initialContext
             providers σ in
  length (heap (result_state r)) = S (length (heap σ)) ∧
  take (length (heap σ)) (heap (result_state r)) = heap σ.
Proof.
  cbn zeta. rewrite (result_state_execute now setTimeout).
  set (n := length (heap σ)).
  assert (length (heap (alloc σ initialContext).2) = S n ∧
          take n (heap (alloc σ initialContext).2) = heap σ) as Hstart.
  { cbn. rewrite length_app. cbn. split; [unfold n; lia|]. by apply take_app_length'. }
  pose proof (walk_rule now setTimeout this workflow n providers
                (λ _ _ σ', length (heap σ') = S n ∧ take n (heap σ') = heap σ)
                (λ r, length (heap (result_state r)) = S n ∧
                      take n (heap (result_state r)) = heap σ)) as Hrule.
  cbn beta in Hrule.
  change (alloc σ initialContext).1 with n.
  apply Hrule; [by intros| by intros| | |exact Hstart].
  - intros c stepDef e σ0 step σ1 [Hlen Htake] _ _ Hstep. cbn zeta.
    pose proof (executeStep_heap now setTimeout this stepDef n providers σ0) as Hheap.
    rewrite Hstep in Hheap. cbn [snd] in Hheap.
    assert (length (heap (merge_output σ1 n step)) = S n ∧
            take n (heap (merge_output σ1 n step)) = heap σ) as Hmerge.
    { rewrite heap_length_merge_output, Hheap. split; [done|].
      unfold merge_output, assign_into. destruct (ws_output step); cbn [heap];
        rewrite ?take_insert_ge by lia; by rewrite Hheap. }
    split; [|split].
    + intros _. cbn [result_state]. by rewrite Hheap.
    + intros _. apply Hmerge.
    + intros _ _. apply Hmerge.
  - intros c stepDef e σ0 error σ1 [Hlen Htake] _ _ Hstep.
    pose proof (executeStep_heap now setTimeout this stepDef n providers σ0) as Hheap.
    rewrite Hstep in Hheap. cbn [snd] in Hheap. cbn [result_state]. by rewrite Hheap.
Qed.

(** ** The records *)

Lemma executeStep_well_formed this workflow c stepDef context providers σ step :
  find_step workflow c = Some stepDef →
  (executeStep now setTimeout this stepDef context providers σ).1 = Ok step →
  well_formed_record workflow step.
Proof.
  intros Hf. pose proof (find_step_id _ _ _ Hf) as Hid.
  assert (find_step workflow (sd_id stepDef) = Some stepDef) as Hf' by congruence.
  destruct (executeStep_cases now setTimeout this stepDef context providers σ)
    as [->|[[out ->]|[[m ->]|[e [-> _]]]]]; [| | |done];
    intros [= <-]; (split; [by exists stepDef|]); split; try done;
    cbn; by eauto.
Qed.

Lemma run_records_well_formed this fuel executionId workflow initialContext providers σ :
  Forall (well_formed_record workflow)
    (result_steps (execute now setTimeout this fuel executionId workflow
                     initialContext providers σ)).
Proof.
  rewrite (result_steps_execute now setTimeout).
  apply (walk_rule now setTimeout this workflow _ providers
           (λ _ e _, Forall (well_formed_record workflow) (we_steps e))
           (λ r, Forall (well_formed_record workflow) (result_steps r))).
  - by intros.
  - by intros.
  - intros c stepDef e σ0 step σ1 HI _ Hf Hstep. cbn zeta.
    assert (Forall (well_formed_record workflow) (we_steps e ++ [step])) as Hall.
    { apply Forall_app. split; [done|]. apply Forall_singleton.
      by eapply executeStep_well_formed, (f_equal fst Hstep). }
    by repeat split.
  - by intros.
  - by constructor.
Qed.

(** X7.  Every record of a run, for any definition and any executors, is
    one [executeStep] can have produced: it carries the name and provider
    of the first step of the definition with its id, and a start time;
    its status is RUNNING, SUCCESS or FAILED, never PENDING or SKIPPED; a
    FAILED record has a completion time and no output, a SUCCESS record
    has a completion time and no error, and a RUNNING record has none of
    the three. *)
Theorem records_are_well_formed this fuel executionId workflow initialContext
    providers σ step :
  step ∈ result_steps (execute now setTimeout this fuel executionId workflow
                         initialContext providers σ) →
  ws_status step ≠ PENDING ∧ ws_status step ≠ SKIPPED ∧
  is_Some (ws_startedAt step) ∧
  (∃ stepDef, find_step workflow (ws_id step) = Some stepDef ∧
              ws_name step = sd_name stepDef ∧
              ws_provider step = sd_provider stepDef) ∧
  (ws_status step = FAILED →
     ws_output step = None ∧ is_Some (ws_completedAt step)) ∧
  (ws_status step = SUCCESS →
     ws_error step = VUndefined ∧ is_Some (ws_completedAt step)) ∧
  (ws_status step = RUNNING →
     ws_error step = VUndefined ∧ ws_output step = None ∧ ws_completedAt step = None).
Proof.
  intros Hin.
  pose proof (run_records_well_formed this fuel executionId workflow initialContext
                providers σ) as Hall.
  rewrite Forall_forall in Hall. destruct (Hall step Hin) as (Hdef & Hstart & Hst).
  destruct (ws_status step); try done; repeat split; try done.
Qed.

(** X8.  A finished execution has its completion time stamped and ended
    in one of three ways.  It is SUCCESS, carries no error, and no
    recorded step failed; or it is FAILED because its last record is a
    failed step, whose error it carries, every earlier record having
    succeeded; or it is FAILED although every record succeeded, because
    [executeStep] rejected on a thrown [null] or [undefined]: the step
    that threw left no record, and the error is the message of the
    runtime's TypeError. *)
Theorem finished_status_reflects_steps this fuel executionId workflow initialContext
    providers σ execution' σ' :
  execute now setTimeout this fuel executionId workflow initialContext providers σ
  = Finished execution' σ' →
  we_completedAt execution' = Some (now (world σ')) ∧
  ((we_status execution' = SUCCESS ∧ we_error execution' = VUndefined ∧
    Forall (λ s, ws_status s ≠ FAILED) (we_steps execution')) ∨
   (we_status execution' = FAILED ∧
    ∃ earlier failed,
      we_steps execution' = earlier ++ [failed] ∧
      Forall (λ s, ws_status s = SUCCESS) earlier ∧
      ws_status failed = FAILED ∧
      we_error execution' = ws_error failed) ∨
   (we_status execution' = FAILED ∧
    Forall (λ s, ws_status s = SUCCESS) (we_steps execution') ∧
    ∃ thrown, nullish thrown = true ∧
              we_error execution' = VStr (cannot_read thrown "message"))).
Proof.
  intros Hrun.
  pose proof (execute_outcome now setTimeout this fuel executionId workflow
                initialContext providers σ) as Hout.
  rewrite Hrun in Hout. cbn in Hout.
  destruct Hout as (_ & _ & Hc & [(Hst & Herr & Hall)|[Hfail|Hrej]]).
  - split; [done|]. by left.
  - destruct Hfail as (earlier & failed & Hsteps & Hearlier & Hf & Hst & Herr & _).
    split; [done|]. right. left. split; [done|]. by exists earlier, failed.
  - destruct Hrej as (Hst & Hall & Herr & _).
    split; [done|]. right. right. done.
Qed.

Lemma executeStep_name this stepDef context providers σ step :
  (executeStep now setTimeout this stepDef context providers σ).1 = Ok step →
  ws_name step = sd_name stepDef.
Proof.
  destruct (executeStep_cases now setTimeout this stepDef context providers σ)
    as [->|[[out ->]|[[m ->]|[e [-> _]]]]]; by intros [= <-].
Qed.

(** X9.  A run starts at the first step of the definition: the first
    record, when there is one, has the id and the name of the step at
    index 0. *)
Theorem run_starts_at_first_step this fuel executionId workflow initialContext
    providers σ step :
  result_steps (execute now setTimeout this fuel executionId workflow
                  initialContext providers σ) !! 0%nat = Some step →
  ∃ first rest, steps workflow = first :: rest ∧
                ws_id step = sd_id first ∧ ws_name step = sd_name first.
Proof.
  rewrite (result_steps_execute now setTimeout).
  unfold first_step_id. destruct (steps workflow) as [|first rest] eqn:Hsteps.
  { by rewrite walk_stops. }
  intros Hstep. exists first, rest. split; [done|].
  destruct (truthy (VStr (sd_id first))) eqn:Ht;
    [|by rewrite walk_stops in Hstep by (by left)].
  pose proof (find_step_head workflow first rest Hsteps) as Hf.
  destruct fuel as [|fuel].
  { by rewrite (walk_suspends now setTimeout this workflow _ providers _ first)
      in Hstep. }
  rewrite (walk_iteration now setTimeout this workflow _ providers fuel _ first)
    in Hstep by done.
  cbn zeta in Hstep.
  destruct (executeStep now setTimeout this first (alloc σ initialContext).1 providers
              (alloc σ initialContext).2) as [[s|error] σ1] eqn:Hrun;
    cbn [fst snd] in Hstep; [|done].
  assert (step = s) as ->.
  { destruct (decide (ws_status s = FAILED)); [by injection Hstep|].
    destruct (decide (ws_status s = SUCCESS)); [|by injection Hstep].
    match type of Hstep with
    | result_steps (walk _ _ _ _ _ _ _ _ ?e ?s0) !! _ = _ =>
        pose proof (walk_steps_prefix now setTimeout this workflow
                      (alloc σ initialContext).1
                      providers fuel (onSuccess first) e s0) as Hpre
    end.
    eapply (prefix_lookup_Some _ _ 0%nat s) in Hpre; [|reflexivity].
    congruence. }
  split; [by eapply executeStep_id, (f_equal fst Hrun)
         |by eapply executeStep_name, (f_equal fst Hrun)].
Qed.

(** ** Termination *)

Lemma walk_forward_finishes this workflow context providers :
  forward_only workflow →
  ∀ fuel current execution σ,
    (∀ c stepDef, current = Some c → find_step workflow c = Some stepDef →
       ∃ i, steps workflow !! i = Some stepDef ∧
            (length (steps workflow) - i ≤ fuel)%nat) →
    let r := walk now setTimeout this workflow context providers fuel current
               execution σ in
    (∀ c e σ', r ≠ Suspended c e σ') ∧
    (length (result_steps r) ≤ length (we_steps execution) + fuel)%nat.
Proof.
  intros Hfwd. cbn zeta.
  assert (∀ fuel execution σ,
            (∀ c e σ', Finished execution σ ≠ Suspended c e σ') ∧
            (length (result_steps (Finished execution σ))
             ≤ length (we_steps execution) + fuel)%nat) as Hdone.
  { intros fuel execution σ. split; [done|]. unfold result_steps. cbn. lia. }
  induction fuel as [|fuel IH]; intros current execution σ Hrank.
  - destruct current as [c|]; [|by rewrite walk_stops].
    destruct (truthy (VStr c)) eqn:Ht; [|by rewrite walk_stops by (by left)].
    destruct (find_step workflow c) as [stepDef|] eqn:Hf;
      [|by rewrite walk_stops by (by right)].
    destruct (Hrank c stepDef eq_refl Hf) as (i & Hi & Hle).
    apply lookup_lt_Some in Hi. lia.
  - destruct current as [c|]; [|by rewrite walk_stops].
    destruct (truthy (VStr c)) eqn:Ht; [|by rewrite walk_stops by (by left)].
    destruct (find_step workflow c) as [stepDef|] eqn:Hf;
      [|by rewrite walk_stops by (by right)].
    destruct (Hrank c stepDef eq_refl Hf) as (i & Hi & Hle).
    rewrite (walk_iteration now setTimeout this workflow context providers fuel c stepDef)
      by done.
    cbn zeta.
    destruct (executeStep now setTimeout this stepDef context providers σ)
      as [[step|error] σ1]; cbn [fst snd].
    2:{ split; [done|]. unfold result_steps. cbn. lia. }
    destruct (decide (ws_status step = FAILED)).
    { split; [done|]. unfold result_steps. cbn. rewrite length_app. cbn. lia. }
    destruct (decide (ws_status step = SUCCESS)).
    2:{ split; [done|]. unfold result_steps. cbn. rewrite length_app. cbn. lia. }
    destruct (IH (onSuccess stepDef) (push_step execution step)
                (merge_output σ1 context step)) as (Hfin & Hlen).
    { intros target next Htarget Hnext.
      destruct (Hfwd i stepDef target next Hi Htarget Hnext) as (j & Hij & Hj).
      exists j. split; [done|]. apply lookup_lt_Some in Hj. lia. }
    split; [done|]. cbn in Hlen. rewrite length_app in Hlen. cbn in Hlen. lia.
Qed.

(** X10.  A workflow whose success edges all lead forward (each resolves,
    if at all, to a step placed later in the definition) terminates: the
    run finishes within as many iterations as the definition has steps,
    and records at most that many steps. *)
Theorem forward_workflow_terminates this executionId workflow initialContext
    providers σ :
  forward_only workflow →
  ∃ execution' σ',
    execute now setTimeout this (length (steps workflow)) executionId workflow
      initialContext providers σ = Finished execution' σ' ∧
    (length (we_steps execution') ≤ length (steps workflow))%nat.
Proof.
  intros Hfwd. unfold execute, executeWorkflowAsync. cbn zeta.
  destruct (walk_forward_finishes this workflow (alloc σ initialContext).1 providers
              Hfwd (length (steps workflow)) (first_step_id workflow)
              (newExecution now executionId workflow initialContext σ)
              (alloc σ initialContext).2) as (Hfin & Hlen).
  { intros c stepDef _ Hf. apply find_step_In, list_elem_of_In in Hf.
    apply list_elem_of_lookup in Hf as [i Hi]. exists i. split; [done|lia]. }
  cbn in Hlen.
  destruct (walk _ _ _ _ _ _ _ _ _ _) as [e σ'|c e σ'|err e σ'].
  - eexists _, _. split; [done|]. exact Hlen.
  - by destruct (Hfin c e σ').
  - unfold on_rejection in *. destruct (read_message err);
      (eexists _, _; split; [done|]); exact Hlen.
Qed.


(** ** Registration *)

Lemma executeStep_same_executor this1 this2 stepDef context providers σ :
  stepExecutors this1 !! sd_type stepDef = stepExecutors this2 !! sd_type stepDef →
  executeStep now setTimeout this1 stepDef context providers σ
  = executeStep now setTimeout this2 stepDef context providers σ.
Proof. intros H. unfold executeStep. by rewrite H. Qed.

(** X12.  Registration is per step type and the last one wins: a second
    registration for a type replaces the first, and registering an
    executor for a type changes nothing in the run of a workflow that has
    no step of that type. *)
Theorem registration_is_per_type this stepType executor fuel executionId workflow
    initialContext providers σ :
  (∀ stepDef, In stepDef (steps workflow) → sd_type stepDef ≠ stepType) →
  execute now setTimeout (registerExecutor this stepType executor) fuel executionId
    workflow initialContext providers σ
  = execute now setTimeout this fuel executionId workflow initialContext providers σ
  ∧
  ∀ earlier, registerExecutor (registerExecutor this stepType earlier) stepType executor
             = registerExecutor this stepType executor.
Proof.
  intros Hother. split.
  - unfold execute, executeWorkflowAsync. cbn zeta.
    rewrite (walk_same_steps now setTimeout
               (registerExecutor this stepType executor) this); [done|].
    intros stepDef σ0 Hin. apply executeStep_same_executor.
    unfold registerExecutor. cbn [stepExecutors].
    rewrite lookup_insert_ne; [done|]. intros ->. by eapply Hother.
  - intros earlier. unfold registerExecutor. cbn. by rewrite insert_insert_eq.
Qed.

(** ** The failure edge *)

Lemma retryLoop_related e1 e2 sd1 sd2 context providers M d :
  sd_id sd1 = sd_id sd2 →
  (∀ c w, same_up_to_hint (e1 sd1 c providers w) (e2 sd2 c providers w)) →
  ∀ (k : nat) attempts step σ, Z.to_nat (M - attempts) = k →
    retryLoop now setTimeout e1 sd1 context providers M d attempts step σ
    = retryLoop now setTimeout e2 sd2 context providers M d attempts step σ.
Proof.
  intros Hid Hrel k. induction k as [k IH] using lt_wf_ind. intros attempts step σ Hk.
  rewrite (retryLoop_body now setTimeout e1), (retryLoop_body now setTimeout e2).
  destruct (decide (attempts < M)); [|done]. cbn zeta.
  destruct (Hrel (deref σ context) (world σ)) as [Hw Hout].
  destruct (e1 _ _ _ _) as [[res1|m1] w1], (e2 _ _ _ _) as [[res2|m2] w2];
    cbn in Hw, Hout |- *; subst; try done.
  - by rewrite Hout, Hid.
  - rewrite Hid. destruct (decide (M <= attempts + 1)); [done|].
    by apply (IH (Z.to_nat (M - (attempts + 1)))); [lia|].
Qed.

Lemma executeStep_onFailure this sd1 sd2 context providers σ :
  blind_to_onFailure this → same_but_onFailure sd1 sd2 →
  executeStep now setTimeout this sd1 context providers σ
  = executeStep now setTimeout this sd2 context providers σ.
Proof.
  intros Hblind Hsame.
  pose proof Hsame as (Hid & Hname & Htype & Hprov & Hconf & Hsucc & Hretry).
  unfold executeStep, new_step. rewrite Hid, Hname, Htype, Hprov, Hretry.
  destruct (stepExecutors this !! sd_type sd2) as [executor|] eqn:Hex; [|done].
  erewrite (retryLoop_related executor executor sd1 sd2); [done|done| |done].
  intros c w. by eapply Hblind.
Qed.

Lemma find_step_onFailure workflow1 workflow2 c :
  Forall2 same_but_onFailure (steps workflow1) (steps workflow2) →
  option_Forall2 same_but_onFailure (find_step workflow1 c) (find_step workflow2 c).
Proof.
  unfold find_step. induction 1 as [|sd1 sd2 l1 l2 Hsame _ IH]; [constructor|].
  cbn. destruct Hsame as (Hid & Hrest). rewrite Hid.
  destruct (String.eqb (sd_id sd2) c); [|exact IH].
  constructor. by split.
Qed.

(** X13.  With executors that use the [onFailure] field of a step for
    nothing but the hint they return (the built-in ones are such), the
    failure edges of a definition are dead: two definitions that differ
    only in [onFailure] fields give the same run. *)
Theorem failure_edges_are_dead this fuel executionId workflow1 workflow2
    initialContext providers σ :
  blind_to_onFailure this →
  wf_id workflow1 = wf_id workflow2 →
  Forall2 same_but_onFailure (steps workflow1) (steps workflow2) →
  execute now setTimeout this fuel executionId workflow1 initialContext providers σ
  = execute now setTimeout this fuel executionId workflow2 initialContext providers σ.
Proof.
  intros Hblind Hwf Hsteps. unfold execute, executeWorkflowAsync. cbn zeta.
  assert (first_step_id workflow1 = first_step_id workflow2) as ->.
  { unfold first_step_id. destruct Hsteps as [|sd1 sd2 ? ? (Hid & _) _]; [done|].
    by rewrite Hid. }
  assert (newExecution now executionId workflow1 initialContext σ
          = newExecution now executionId workflow2 initialContext σ) as ->
    by (unfold newExecution; by rewrite Hwf).
  assert (∀ fuel' current execution σ0,
            walk now setTimeout this workflow1 (alloc σ initialContext).1 providers
              fuel' current execution σ0
            = walk now setTimeout this workflow2 (alloc σ initialContext).1 providers
                fuel' current execution σ0) as Hwalk.
  { induction fuel' as [|fuel' IH]; intros current execution σ0.
    - destruct current as [c|]; [|done]. cbn [walk].
      destruct (negb (truthy (VStr c))); [done|].
      by destruct (find_step_onFailure workflow1 workflow2 c Hsteps).
    - destruct current as [c|]; [|done].
      destruct (truthy (VStr c)) eqn:Ht; [|by rewrite !walk_stops by (by left)].
      pose proof (find_step_onFailure workflow1 workflow2 c Hsteps) as Hrel.
      destruct (find_step workflow1 c) as [sd1|] eqn:Hf1,
               (find_step workflow2 c) as [sd2|] eqn:Hf2;
        try (by inversion Hrel).
      2:{ rewrite !walk_stops; [done|right|right]; done. }
      assert (same_but_onFailure sd1 sd2) as Hsame by (by inversion Hrel).
      rewrite (walk_iteration now setTimeout this workflow1 _ providers fuel' c sd1),
              (walk_iteration now setTimeout this workflow2 _ providers fuel' c sd2)
        by done.
      cbn zeta. rewrite (executeStep_onFailure this sd1 sd2) by done.
      destruct Hsame as (_ & _ & _ & _ & _ & Hsucc & _). rewrite Hsucc.
      destruct ((executeStep _ _ _ _ _ _ _).1) as [step|error]; [|done].
      destruct (decide _); [done|]. destruct (decide _); [|done]. apply IH. }
  by rewrite Hwalk.
Qed.

Lemma builtin_executors_blind (caller : WebhookCaller (W:=W)) :
  blind_to_onFailure (newWorkflowEngine now setTimeout caller).
Proof.
  intros stepType executor sd1 sd2 c p w Hex Hsame.
  rewrite default_executors in Hex.
  destruct sd1 as [id1 name1 type1 prov1 conf1 succ1 fail1 retry1],
           sd2 as [id2 name2 type2 prov2 conf2 succ2 fail2 retry2].
  destruct Hsame as (Hid & Hname & Htype & Hprov & Hconf & Hsucc & Hretry).
  cbn in Hid, Hname, Htype, Hprov, Hconf, Hsucc, Hretry. subst.
  repeat (destruct (decide _) as [_|_] in Hex;
          [injection Hex as <-;
           unfold same_up_to_hint, DelayStepExecutor, WebhookStepExecutor,
             CheckFreeShippingStepExecutor, QueryOrderStepExecutor,
             CreateOrderStepExecutor, webhook_url, webhook_payload, config_prop;
           cbn; repeat case_match; simplify_eq/=; done|]).
  done.
Qed.

(** ** Built-in executors *)

(** X14.  The configuration errors of the built-in executors, in the
    order they are checked, each raised before any collaborator is
    called (the world is returned as it was): a missing webhook URL; a
    missing provider id; for the two steps that need one, a missing order
    id, reported before the provider is looked up; a provider id (a
    string, as the type of the field has it) that the table does not
    have. *)
Theorem builtin_configuration_errors (caller : WebhookCaller (W:=W)) stepDef
    (contextObj : Obj) providers (w : W) :
  let providerId := js_or (of_opt_string (sd_provider stepDef))
                          (prop contextObj "provider") in
  (truthy (webhook_url stepDef contextObj) = false →
   WebhookStepExecutor now caller stepDef contextObj providers w
   = (Throw (new_Error "Webhook URL is required for webhook step"), w)) ∧
  (truthy providerId = false →
   CreateOrderStepExecutor stepDef contextObj providers w
     = (Throw (new_Error "Provider is required for create_order step"), w) ∧
   QueryOrderStepExecutor stepDef contextObj providers w
     = (Throw (new_Error "Provider is required for query_order step"), w) ∧
   CheckFreeShippingStepExecutor stepDef contextObj providers w
     = (Throw (new_Error "Provider is required for check_free_shipping step"), w)) ∧
  (truthy providerId = true → truthy (prop contextObj "orderId") = false →
   QueryOrderStepExecutor stepDef contextObj providers w
     = (Throw (new_Error "Order ID is required for query_order step"), w) ∧
   CheckFreeShippingStepExecutor stepDef contextObj providers w
     = (Throw (new_Error "Order ID is required for check_free_shipping step"), w)) ∧
  (∀ k : string,
     providerId = VStr k → k ≠ "" → providers !! k = None →
     CreateOrderStepExecutor stepDef contextObj providers w
       = (Throw (new_Error ("Provider " +:+ k +:+ " not found")), w) ∧
     (truthy (prop contextObj "orderId") = true →
      QueryOrderStepExecutor stepDef contextObj providers w
        = (Throw (new_Error ("Provider " +:+ k +:+ " not found")), w) ∧
      CheckFreeShippingStepExecutor stepDef contextObj providers w
        = (Throw (new_Error ("Provider " +:+ k +:+ " not found")), w))).
Proof.
  cbn zeta. unfold WebhookStepExecutor, CreateOrderStepExecutor,
    QueryOrderStepExecutor, CheckFreeShippingStepExecutor. cbn zeta.
  split; [by intros ->|]. split; [by intros ->|].
  split; [by intros -> ->|]. intros k -> Hk Hnone.
  assert (truthy (VStr k) = true) as Ht.
  { cbn. destruct (String.eqb k "") eqn:Heq; [|done]. by apply String.eqb_eq in Heq. }
  rewrite Ht. cbn [negb providers_get js_to_string]. rewrite Hnone.
  split; [done|]. by intros ->.
Qed.







(** ** A thrown [null] *)

(** X29.  The [catch] block of [executeStep] reads the message off the
    caught value, so a step whose attempts all throw [null] or
    [undefined] marks nothing.  When the first step of a workflow is
    such a step, the executor is invoked as often as the retry policy
    allows, [executeStep] rejects, and the run ends without any record:
    it is the [catch] handler of [execute] that marks the execution
    FAILED, with the message of the runtime's TypeError and a completion
    time. *)
Theorem thrown_null_leaves_no_record this fuel executionId workflow initialContext
    providers σ stepDef rest executor :
  steps workflow = stepDef :: rest →
  truthy (VStr (sd_id stepDef)) = true →
  stepExecutors this !! sd_type stepDef = Some executor →
  0 < num_or (maxAttempts <$> retry stepDef) 1 →
  (∀ w, ∃ error, (executor stepDef initialContext providers w).1 = Throw error ∧
                 nullish error = true) →
  ∃ thrown execution' σ',
    nullish thrown = true ∧
    execute now setTimeout this (S fuel) executionId workflow initialContext providers σ
    = Finished execution' σ' ∧
    we_steps execution' = [] ∧
    we_status execution' = FAILED ∧
    we_error execution' = VStr (cannot_read thrown "message") ∧
    we_completedAt execution' = Some (now (world σ')) ∧
    length (invocation_outcomes (drop (length (log σ)) (log σ')))
    = Z.to_nat (num_or (maxAttempts <$> retry stepDef) 1).
Proof.
  intros Hsteps Ht Hex HM Hthrows.
  set (σ0 := (alloc σ initialContext).2).
  set (context := (alloc σ initialContext).1).
  assert (∃ thrown σ1,
            nullish thrown = true ∧
            executeStep now setTimeout this stepDef context providers σ0
            = (Throw (new_Error (cannot_read thrown "message")), σ1) ∧
            length (invocation_outcomes (drop (length (log σ)) (log σ1)))
            = Z.to_nat (num_or (maxAttempts <$> retry stepDef) 1))
    as (thrown & σ1 & Hnull & Hstep & Hcount).
  { unfold executeStep. rewrite Hex.
    set (M := num_or _ 1) in *. set (d := num_or _ 0). set (step := new_step _ _ _).
    destruct (retryLoop_all_throw now setTimeout executor stepDef context providers M
                d initialContext (λ e, nullish e = true) Hthrows
                (Z.to_nat M - 1) 0 step σ0)
      as (es & final & σ' & Heq & Hlen & Hlast & Hfinal & Hlog & _);
      [apply deref_alloc|lia|].
    rewrite Heq. unfold step_caught. rewrite (read_message_Throw final Hfinal).
    exists final, σ'. split; [done|]. split; [done|].
    rewrite Hlog. change (log σ0) with (log σ).
    rewrite drop_app_length, invocation_outcomes_failing, length_fmap. lia. }
  exists thrown. unfold execute, executeWorkflowAsync. cbn zeta.
  unfold first_step_id. rewrite Hsteps.
  rewrite (walk_iteration now setTimeout this workflow _ providers fuel _ stepDef)
    by (by try apply (find_step_head workflow stepDef rest)).
  cbn zeta. fold σ0 context. rewrite Hstep. cbn [fst snd].
  eexists _, σ1. split; [done|]. split; [reflexivity|]. done.
Qed.

End MoreProperties.

(** * The provider registry *)

Section RegistryProperties.

Context {W : Type}.

Import ProviderRegistry.

Implicit Types (this : ProviderRegistry.t (W:=W)) (provider : Provider (W:=W)).

Lemma entries_get_app entries entries' (key : string) :
  entries_get (W:=W) (entries ++ entries') key
  = match entries_get entries key with
    | Some p => Some p
    | None => entries_get entries' key
    end.
Proof.
  induction entries as [|[k v] entries IH]; [done|].
  cbn. by destruct (String.eqb k key).
Qed.

Lemma entries_get_Some entries (key : string) provider :
  entries_get (W:=W) entries key = Some provider → (key, provider) ∈ entries.
Proof.
  induction entries as [|[k v] entries IH]; [done|]. cbn.
  destruct (String.eqb k key) eqn:Hk.
  - apply String.eqb_eq in Hk as ->. intros [= ->]. by left.
  - intros H. right. by apply IH.
Qed.

Lemma entries_get_None entries (key : string) :
  entries_get (W:=W) entries key = None ↔ key ∉ (fst <$> entries).
Proof.
  induction entries as [|[k v] entries IH]; [by split; [intros _; apply not_elem_of_nil|]|].
  cbn. destruct (String.eqb k key) eqn:Hk.
  - apply String.eqb_eq in Hk as ->. split; [done|]. intros H. exfalso. apply H. by left.
  - apply String.eqb_neq in Hk. rewrite IH, not_elem_of_cons.
    split; [intros ?; split; [congruence|done]|by intros [_ ?]].
Qed.

Lemma entries_get_delete entries (key key' : string) :
  entries_get (W:=W) (entries_delete entries key) key'
  = if decide (key = key') then None else entries_get entries key'.
Proof.
  unfold entries_delete. induction entries as [|[k v] entries IH].
  { by destruct (decide _). }
  rewrite filter_cons. cbn [fst]. destruct (decide (k ≠ key)) as [Hne|Heq].
  - cbn. destruct (String.eqb k key') eqn:Hk; [|exact IH].
    apply String.eqb_eq in Hk as ->. by destruct (decide (key = key')).
  - apply dec_stable in Heq as ->. rewrite IH. cbn.
    destruct (decide (key = key')) as [->|Hne]; [done|].
    apply String.eqb_neq in Hne. by rewrite Hne.
Qed.

(** X20.  [register] refuses an id that is already registered and leaves
    the registry as it was; otherwise the provider is added at the end of
    [getAll], is returned by [get] under its id, starts uninitialized
    unless a configuration was already stored for that id, and no other
    id is affected. *)
Theorem register_rejects_duplicates this provider :
  match register this provider with
  | Throw error =>
      is_Some (get this (p_id provider)) ∧
      error = new_Error ("Provider " +:+ p_id provider +:+ " is already registered")
  | Ok this' =>
      get this (p_id provider) = None ∧
      get this' (p_id provider) = Some provider ∧
      getAll this' = getAll this ++ [provider] ∧
      (∀ k, k ≠ p_id provider → get this' k = get this k) ∧
      (∀ k, isInitialized this' k = isInitialized this k)
  end.
Proof.
  unfold register. destruct (get this (p_id provider)) as [p|] eqn:Hget.
  { split; [by eexists|done]. }
  unfold get in *. cbn. split; [done|]. split; [|split; [|split; [|done]]].
  - rewrite entries_get_app, Hget. cbn. by rewrite String.eqb_refl.
  - unfold getAll. cbn. by rewrite fmap_app.
  - intros k Hk. rewrite entries_get_app. destruct (entries_get _ k); [done|].
    cbn. apply not_eq_sym, String.eqb_neq in Hk. by rewrite Hk.
Qed.

(** X21.  [initializeProvider] marks a provider initialized only when it
    is registered and its [initialize] returned: for an unregistered id
    it throws without calling anything, and when [initialize] throws the
    error is passed on with no configuration stored.  On success the
    provider becomes available through [getInitialized], and no other id
    changes its status. *)
Theorem initializeProvider_marks_on_success this providerId config (w : W) :
  match initializeProvider this providerId config w with
  | (Throw error, w') =>
      (get this providerId = None ∧ w' = w ∧
       error = new_Error ("Provider " +:+ providerId +:+ " is not registered")) ∨
      (∃ provider, get this providerId = Some provider ∧
                   p_initialize provider config w = (Throw error, w'))
  | (Ok this', w') =>
      ∃ provider,
        get this providerId = Some provider ∧
        (p_initialize provider config w).2 = w' ∧
        isInitialized this' providerId = true ∧
        getInitialized this' providerId = Some provider ∧
        (∀ k, get this' k = get this k) ∧
        (∀ k, k ≠ providerId → isInitialized this' k = isInitialized this k)
  end.
Proof.
  unfold initializeProvider. destruct (get this providerId) as [provider|] eqn:Hget.
  2:{ by left. }
  destruct (p_initialize provider config w) as [[u|m] w'] eqn:Hinit.
  - exists provider. split; [done|]. split; [by rewrite Hinit|].
    assert (isInitialized
              {| providers := providers this;
                 initializedProviders := <[providerId:=config]> (initializedProviders this) |}
              providerId = true) as Hinitd.
    { unfold isInitialized. cbn. apply bool_decide_eq_true.
      rewrite lookup_insert_eq. by eexists. }
    split; [done|]. split; [|split; [done|]].
    + unfold getInitialized. by rewrite Hinitd.
    + intros k Hk. unfold isInitialized. cbn. by rewrite lookup_insert_ne.
  - right. by exists provider.
Qed.

(** X22.  [unregister] forgets the provider and its configuration: the
    id is no longer registered nor initialized, the other ids keep their
    provider and status, and a provider registered again under that id
    is accepted and starts uninitialized.  The world is touched only
    through the stop hook of the provider that was there. *)
Theorem unregister_forgets this providerId (w : W) :
  let r := unregister this providerId w in
  get r.1 providerId = None ∧
  isInitialized r.1 providerId = false ∧
  getInitialized r.1 providerId = None ∧
  (∀ k, k ≠ providerId →
        get r.1 k = get this k ∧ isInitialized r.1 k = isInitialized this k) ∧
  (∀ provider, p_id provider = providerId →
     ∃ this', register r.1 provider = Ok this' ∧
              get this' providerId = Some provider ∧
              isInitialized this' providerId = false) ∧
  (get this providerId = None → r.2 = w).
Proof.
  cbn zeta.
  assert (get (unregister this providerId w).1 providerId = None) as Hgone.
  { unfold get, unregister. cbn. rewrite entries_get_delete. by destruct (decide _). }
  assert (isInitialized (unregister this providerId w).1 providerId = false) as Hinit.
  { unfold isInitialized, unregister. cbn. apply bool_decide_eq_false.
    rewrite lookup_delete_eq. by intros [? ?]. }
  split; [done|]. split; [done|]. split; [|split; [|split]].
  - unfold getInitialized. by rewrite Hinit.
  - intros k Hk. split.
    + unfold get, unregister. cbn. rewrite entries_get_delete.
      destruct (decide _); [congruence|done].
    + unfold isInitialized, unregister. cbn. by rewrite lookup_delete_ne.
  - intros provider <-. unfold register. rewrite Hgone. eexists. split; [done|].
    split; [|exact Hinit].
    unfold get in *. cbn [providers]. rewrite entries_get_app, Hgone. cbn.
    by rewrite String.eqb_refl.
  - intros Hnone. unfold unregister. cbn. by rewrite Hnone.
Qed.

Lemma consistent_empty : consistent (empty (W:=W)).
Proof.
  split; [constructor|]. split; [constructor|].
  intros k. cbn. rewrite lookup_empty. by intros [? ?].
Qed.

(** X23.  Every method keeps the registry consistent: no id is
    registered twice, each provider sits under its own id, and only
    registered providers are marked initialized (so [isInitialized]
    implies that [getInitialized] returns a provider). *)
Theorem registry_stays_consistent this :
  consistent this →
  (∀ provider this', register this provider = Ok this' → consistent this') ∧
  (∀ providerId config (w w' : W) this',
     initializeProvider this providerId config w = (Ok this', w') →
     consistent this') ∧
  (∀ providerId (w : W), consistent (unregister this providerId w).1) ∧
  (∀ w : W, consistent (clear this w).1) ∧
  (∀ k, isInitialized this k = true → is_Some (getInitialized this k)).
Proof.
  intros (Hdup & Hkeys & Hinit). split; [|split; [|split; [|split]]].
  - intros provider this'. unfold register.
    destruct (get this (p_id provider)) eqn:Hget; [done|]. intros [= <-].
    split; [|split]; cbn.
    + rewrite fmap_app. apply NoDup_app. split; [done|]. split; [|by apply NoDup_singleton].
      intros k Hk Hk'. apply list_elem_of_singleton in Hk' as ->.
      unfold get in Hget. by apply entries_get_None in Hget.
    + apply Forall_app. split; [done|]. by apply Forall_singleton.
    + intros k Hk. unfold get. cbn. rewrite entries_get_app.
      destruct (Hinit k Hk) as [p Hp]. unfold get in Hp. rewrite Hp. by eexists.
  - intros providerId config w w' this'. unfold initializeProvider.
    destruct (get this providerId) as [provider|] eqn:Hget; [|done].
    destruct (p_initialize provider config w) as [[u|m] w0]; [|done].
    intros [= <- <-]. split; [done|]. split; [done|]. cbn.
    intros k. unfold get. cbn. destruct (decide (providerId = k)) as [<-|Hk].
    + intros _. by eexists.
    + rewrite lookup_insert_ne by done. apply Hinit.
  - intros providerId w. unfold unregister. split; [|split]; cbn.
    + eapply sublist_NoDup; [exact Hdup|]. apply fmap_sublist, sublist_filter.
    + unfold entries_delete. rewrite Forall_forall in Hkeys |- *.
      intros e He. apply list_elem_of_filter in He as [_ He]. by apply Hkeys.
    + intros k. unfold get. cbn. rewrite entries_get_delete.
      destruct (decide (providerId = k)) as [<-|Hk].
      * rewrite lookup_delete_eq. by intros [? ?].
      * rewrite lookup_delete_ne by done. apply Hinit.
  - intros w. apply consistent_empty.
  - intros k Hk. unfold getInitialized. rewrite Hk. cbn.
    apply Hinit. unfold isInitialized in Hk. by apply bool_decide_eq_true in Hk.
Qed.

Lemma initialized_table_fold this (entries : list (string * Provider (W:=W)))
    (table : gmap string (IProvider (W:=W))) (k : string) :
  NoDup (fst <$> entries) → Forall (λ e, e.1 = p_id e.2) entries →
  foldl (λ table provider,
           if isInitialized this (p_id provider)
           then <[ p_id provider := p_operations provider ]> table
           else table) table (snd <$> entries) !! k
  = match entries_get entries k with
    | Some provider => if isInitialized this k then Some (p_operations provider)
                       else table !! k
    | None => table !! k
    end.
Proof.
  revert table. induction entries as [|[key provider] entries IH]; intros table Hdup Hkeys;
    [done|].
  cbn [fmap list_fmap foldl snd].
  apply NoDup_cons in Hdup as [Hfresh Hdup]. apply Forall_cons in Hkeys as [Hkey Hkeys].
  cbn in Hkey, Hfresh. subst key. rewrite IH by done. cbn [entries_get].
  destruct (String.eqb (p_id provider) k) eqn:Hk.
  - apply String.eqb_eq in Hk as <-.
    apply entries_get_None in Hfresh. rewrite Hfresh.
    destruct (isInitialized this (p_id provider)); [|done]. by rewrite lookup_insert_eq.
  - apply String.eqb_neq in Hk.
    assert ((if isInitialized this (p_id provider)
             then <[p_id provider:=p_operations provider]> table else table) !! k
            = table !! k) as ->; [|done].
    destruct (isInitialized this (p_id provider)); [|done]. by rewrite lookup_insert_ne.
Qed.

(** X24.  The provider table the service hands to the engine holds
    exactly the providers that are registered and initialized.  A
    provider that is registered but not initialized is therefore unknown
    to the engine: a create-order step naming it throws
    "Provider ... not found" without calling anything. *)
Theorem engine_sees_initialized_providers_only this :
  consistent this →
  (∀ k, initialized_table this !! k = p_operations <$> getInitialized this k) ∧
  (∀ stepDef (contextObj : Obj) (w : W) k,
     sd_provider stepDef = Some k → k ≠ "" →
     isInitialized this k = false →
     CreateOrderStepExecutor stepDef contextObj (initialized_table this) w
     = (Throw (new_Error ("Provider " +:+ k +:+ " not found")), w)).
Proof.
  intros (Hdup & Hkeys & Hinit).
  assert (∀ k, initialized_table this !! k = p_operations <$> getInitialized this k)
    as Htable.
  { intros k. unfold initialized_table, getAll.
    rewrite initialized_table_fold by done. rewrite lookup_empty.
    unfold getInitialized, get. destruct (isInitialized this k); cbn;
      by destruct (entries_get (providers this) k). }
  split; [exact Htable|].
  intros stepDef contextObj w k Hprov Hk Hnot.
  unfold CreateOrderStepExecutor. cbn zeta. rewrite Hprov. cbn [of_opt_string].
  assert (truthy (VStr k) = true) as Ht.
  { cbn. destruct (String.eqb k "") eqn:Heq; [|done]. by apply String.eqb_eq in Heq. }
  unfold js_or. rewrite Ht. cbn [negb providers_get js_to_string].
  rewrite Ht. cbn [negb]. rewrite Htable. unfold getInitialized. by rewrite Hnot.
Qed.

End RegistryProperties.

(** * The base provider and the default workflows *)

Section ProviderProperties.

Context {W : Type} (now : W → Z) (setTimeout : Value → W → W).

(** X25.  A create-order step against a provider derived from the base
    class reaches the provider-specific [doCreateOrder] only when the
    provider is initialized and [context.input] is a complete request.
    Otherwise the step throws without calling it, the checks coming in
    this order: not initialized; sender, recipient or items missing, or
    items empty; a phone number missing. *)
Theorem create_order_step_validates_request stepDef (contextObj : Obj)
    (providers : gmap string (IProvider (W:=W))) (w : W)
    (config : option Obj) (impl : BaseProvider.Implementation (W:=W)) :
  let providerId := js_or (of_opt_string (sd_provider stepDef))
                          (prop contextObj "provider") in
  let input := prop contextObj "input" in
  let request := {| cor_provider := providerId;
                    cor_from := opt_prop input "from";
                    cor_to := opt_prop input "to";
                    cor_items := opt_prop input "items";
                    cor_metadata := opt_prop input "metadata" |} in
  let complete := truthy (opt_prop input "from") && truthy (opt_prop input "to") &&
                  truthy (opt_prop input "items") &&
                  negb (BaseProvider.is_zero
                          (BaseProvider.js_length (opt_prop input "items"))) in
  let phones := truthy (opt_prop (opt_prop input "from") "phone") &&
                truthy (opt_prop (opt_prop input "to") "phone") in
  truthy providerId = true →
  providers_get providers providerId = Some (BaseProvider.as_provider config impl) →
  CreateOrderStepExecutor stepDef contextObj providers w
  = match config with
    | None =>
        (Throw (new_Error ("Provider " +:+ BaseProvider.b_id impl
                           +:+ " is not initialized")), w)
    | Some _ =>
        if negb complete
        then (Throw (new_Error "Invalid create order request: missing required fields"),
              w)
        else if negb phones
        then (Throw (new_Error "Invalid create order request: phone number is required"),
              w)
        else
          match BaseProvider.doCreateOrder impl request w with
          | (Throw error, w') => (Throw error, w')
          | (Ok response, w') =>
              (Ok {| output := Some (list_to_map
                       [("order", cr_order response);
                        ("trackingNumber", cr_trackingNumber response);
                        ("estimatedDelivery", cr_estimatedDelivery response)]);
                     nextStepId := onSuccess stepDef |}, w')
          end
    end.
Proof.
  cbn zeta. intros Hpid Hget.
  unfold CreateOrderStepExecutor. cbn zeta. rewrite Hpid, Hget. cbn [negb].
  unfold BaseProvider.as_provider. cbn [createOrder].
  unfold BaseProvider.createOrder, BaseProvider.validateCreateOrderRequest.
  cbn [cor_from cor_to cor_items].
  destruct config; [|done].
  destruct (truthy (opt_prop (prop contextObj "input") "from")),
    (truthy (opt_prop (prop contextObj "input") "to")),
    (truthy (opt_prop (prop contextObj "input") "items")),
    (BaseProvider.is_zero
       (BaseProvider.js_length (opt_prop (prop contextObj "input") "items")));
    cbn; try done.
  by destruct (truthy (opt_prop (opt_prop (prop contextObj "input") "from") "phone")),
    (truthy (opt_prop (opt_prop (prop contextObj "input") "to") "phone")).
Qed.

(** X26.  A provider derived from the base class always has the
    free-shipping method, so the executor never takes its "unsupported"
    branch for it.  When such a provider is not initialized, or supplies
    no provider-specific check, the step still returns
    [{notification: null}] with the [onFailure] hint, through the
    method's own null result, and nothing else is called. *)
Theorem base_provider_free_shipping_is_null stepDef (contextObj : Obj)
    (providers : gmap string (IProvider (W:=W))) (w : W)
    (config : option Obj) (impl : BaseProvider.Implementation (W:=W)) :
  let providerId := js_or (of_opt_string (sd_provider stepDef))
                          (prop contextObj "provider") in
  truthy providerId = true →
  truthy (prop contextObj "orderId") = true →
  providers_get providers providerId = Some (BaseProvider.as_provider config impl) →
  config = None ∨ BaseProvider.doCheckFreeShipping impl = None →
  is_Some (checkFreeShipping (BaseProvider.as_provider config impl)) ∧
  CheckFreeShippingStepExecutor stepDef contextObj providers w
  = (Ok {| output := Some {[ "notification" := VNull ]};
           nextStepId := onFailure stepDef |}, w).
Proof.
  cbn zeta. intros Hpid Hoid Hget Hnone. split; [by eexists|].
  unfold CheckFreeShippingStepExecutor. cbn zeta. rewrite Hpid, Hoid, Hget.
  cbn. unfold BaseProvider.checkFreeShipping.
  destruct Hnone as [->| ->]; [done|]. by destruct config.
Qed.

Implicit Types (this : WorkflowEngine (W:=W)) (σ : State (W:=W))
  (providers : gmap string (IProvider (W:=W))).

(** A run whose first step has no step to go on to records that step
    only, or nothing when the step rejects. *)
Lemma single_step_run this fuel executionId workflow initialContext providers σ
    first rest :
  steps workflow = first :: rest →
  truthy (VStr (sd_id first)) = true →
  stops_at workflow (onSuccess first) →
  ∃ execution' σ',
    execute now setTimeout this (S fuel) executionId workflow initialContext providers σ
    = Finished execution' σ' ∧
    match (executeStep now setTimeout this first (alloc σ initialContext).1 providers
             (alloc σ initialContext).2).1 with
    | Ok step => we_steps execution' = [step]
    | Throw _ => we_steps execution' = [] ∧ we_status execution' = FAILED
    end.
Proof.
  intros Hsteps Ht Hstop. unfold execute, executeWorkflowAsync. cbn zeta.
  unfold first_step_id. rewrite Hsteps.
  rewrite (walk_iteration now setTimeout this workflow _ providers fuel _ first)
    by (by try apply (find_step_head workflow first rest)).
  cbn zeta.
  destruct (executeStep now setTimeout this first (alloc σ initialContext).1 providers
              (alloc σ initialContext).2) as [[step|error] σ1]; cbn [fst snd].
  - destruct (decide _); [by eexists _, _|].
    destruct (decide _); [|by eexists _, _].
    rewrite walk_stops by done. by eexists _, _.
  - unfold on_rejection. destruct (read_message error); by eexists _, _.
Qed.

(** X27.  The default workflows never get past their first step: its
    [onSuccess] is unset, so whatever the engine, the caller's URL, the
    context and the providers, a run finishes after that step and
    records it alone ("Create Order", respectively "Check Free
    Shipping"), or records nothing and is FAILED when the step rejects;
    the webhook steps that follow in the definitions are never
    executed. *)
Theorem default_workflows_run_one_step this fuel executionId webhookUrl
    initialContext providers σ :
  (∃ execution' σ',
     execute now setTimeout this (S fuel) executionId
       (create_order_workflow webhookUrl) initialContext providers σ
     = Finished execution' σ' ∧
     ((∃ step, we_steps execution' = [step] ∧ ws_name step = "Create Order") ∨
      (we_steps execution' = [] ∧ we_status execution' = FAILED))) ∧
  (∃ execution' σ',
     execute now setTimeout this (S fuel) executionId
       DEFAULT_FREE_SHIPPING_WORKFLOW initialContext providers σ
     = Finished execution' σ' ∧
     ((∃ step, we_steps execution' = [step] ∧ ws_name step = "Check Free Shipping") ∨
      (we_steps execution' = [] ∧ we_status execution' = FAILED))).
Proof.
  split.
  - destruct (single_step_run this fuel executionId (create_order_workflow webhookUrl)
                initialContext providers σ _ _ eq_refl eq_refl I)
      as (e & σ' & Hrun & Hsteps).
    exists e, σ'. split; [exact Hrun|].
    destruct ((executeStep _ _ _ _ _ _ _).1) as [step|error] eqn:Hstep; [|by right].
    left. exists step. split; [done|].
    by apply (executeStep_name now setTimeout _ _ _ _ _ _ Hstep).
  - destruct (single_step_run this fuel executionId DEFAULT_FREE_SHIPPING_WORKFLOW
                initialContext providers σ _ _ eq_refl eq_refl I)
      as (e & σ' & Hrun & Hsteps).
    exists e, σ'. split; [exact Hrun|].
    destruct ((executeStep _ _ _ _ _ _ _).1) as [step|error] eqn:Hstep; [|by right].
    left. exists step. split; [done|].
    by apply (executeStep_name now setTimeout _ _ _ _ _ _ Hstep).
Qed.

End ProviderProperties.

(** * More concrete runs *)

(** The retried step of the demonstration: three attempts, all thrown. *)
Lemma retry_budget_is_respected_witness :
  let σ := Demo.loop_state ∅ in
  let r := executeStep Demo.now Demo.setTimeout Demo.custom_engine Demo.retried
             0%nat Demo.couriers σ in
  let call := λ w, (Demo.always_throws Demo.retried (deref σ 0%nat) Demo.couriers w).2 in
  ∃ thrown events,
    log r.2 = log σ ++ events ∧
    (length (invocation_outcomes events) ≤ Z.to_nat 3)%nat ∧
    (0 ≤ 50 → waits_between events
              = replicate (length (invocation_outcomes events) - 1) 50) ∧
    world r.2 = attempts_world call (back_off Demo.setTimeout 50)
                  (length (invocation_outcomes events)) (world σ) ∧
    ((0 < 3 ∧
      invocation_outcomes events = (Some <$> thrown) ++ [None] ∧
      ∃ step, r.1 = Ok step ∧ ws_status step = SUCCESS) ∨
     (0 < 3 ∧
      invocation_outcomes events = Some <$> thrown ∧
      length thrown = Z.to_nat 3 ∧
      ∃ final, last thrown = Some final ∧
        match r.1 with
        | Ok step => nullish final = false ∧ ws_status step = FAILED ∧
                     ws_error step = opt_prop final "message"
        | Throw e => nullish final = true ∧
                     e = new_Error (cannot_read final "message")
        end) ∨
     (3 ≤ 0 ∧ events = [] ∧
      r.1 = Ok (new_step Demo.retried 0%nat (Demo.now (world σ))) ∧
      ws_status (new_step Demo.retried 0%nat (Demo.now (world σ))) = RUNNING)).
Proof.
  exact (retry_budget_is_respected Demo.now Demo.setTimeout Demo.custom_engine
           Demo.retried 0%nat Demo.couriers (Demo.loop_state ∅) Demo.always_throws
           eq_refl).
Defined.

(** A "condition" step on the engine as constructed. *)
Lemma unknown_step_type_fails_witness :
  executeStep Demo.now Demo.setTimeout Demo.engine Fixtures.condition_step 0%nat
    Demo.couriers (Demo.loop_state ∅)
  = (Ok (step_failed (new_step Fixtures.condition_step 0%nat 0)
           (VStr "No executor found for step type: condition") 0), Demo.loop_state ∅).
Proof.
  apply (unknown_step_type_fails Demo.now Demo.setTimeout Demo.flaky_caller
           Fixtures.condition_step 0%nat Demo.couriers (Demo.loop_state ∅)).
  intros H. repeat (apply elem_of_cons in H as [H|H]; [discriminate H|]).
  by apply elem_of_nil in H.
Defined.

Lemma nothing_to_run_witness :
  ∃ execution',
    Demo.run 0 Demo.engine Fixtures.no_steps Demo.order_context
    = Finished execution' (alloc Demo.start Demo.order_context).2 ∧
    we_status execution' = SUCCESS ∧
    we_steps execution' = [] ∧
    we_error execution' = VUndefined ∧
    we_completedAt execution' = Some (Demo.now (world Demo.start)) ∧
    log (alloc Demo.start Demo.order_context).2 = log Demo.start.
Proof.
  apply (nothing_to_run Demo.now Demo.setTimeout Demo.engine 0 "exec-1"
           Fixtures.no_steps Demo.order_context Demo.couriers Demo.start).
  reflexivity.
Defined.


(** The two-step run is finished after two iterations; eight more change
    nothing. *)
Lemma run_is_append_only_witness :
  Demo.run (2 + 8) Demo.custom_engine Demo.write_twice Demo.x_is_zero
  = Demo.run 2 Demo.custom_engine Demo.write_twice Demo.x_is_zero.
Proof.
  eapply (proj2 (run_is_append_only Demo.now Demo.setTimeout Demo.custom_engine 2 8
                   "exec-1" Demo.write_twice Demo.x_is_zero Demo.couriers Demo.start)).
  vm_compute. reflexivity.
Defined.

(** The record of a step that threw a string: FAILED, and its error is
    [undefined]. *)
Lemma records_are_well_formed_witness :
  ∃ step,
    result_steps (execute Demo.now Demo.setTimeout Fixtures.odd_engine 10 "exec-1"
                    (Demo.workflow_of [Fixtures.text_step]) ∅ Demo.couriers Demo.start)
      !! 0%nat = Some step ∧
    ws_status step = FAILED ∧ ws_error step = VUndefined ∧
    ws_status step ≠ PENDING ∧ ws_status step ≠ SKIPPED ∧
    is_Some (ws_startedAt step) ∧
    (∃ stepDef, find_step (Demo.workflow_of [Fixtures.text_step]) (ws_id step)
                = Some stepDef ∧
                ws_name step = sd_name stepDef ∧
                ws_provider step = sd_provider stepDef) ∧
    (ws_status step = FAILED →
       ws_output step = None ∧ is_Some (ws_completedAt step)) ∧
    (ws_status step = SUCCESS →
       ws_error step = VUndefined ∧ is_Some (ws_completedAt step)) ∧
    (ws_status step = RUNNING →
       ws_error step = VUndefined ∧ ws_output step = None ∧
       ws_completedAt step = None).
Proof.
  eexists. split; [reflexivity|]. split; [reflexivity|]. split; [reflexivity|].
  apply (records_are_well_formed Demo.now Demo.setTimeout Fixtures.odd_engine 10
           "exec-1" (Demo.workflow_of [Fixtures.text_step]) ∅ Demo.couriers Demo.start).
  apply (list_elem_of_lookup_2 _ 0%nat). reflexivity.
Defined.

(** Step A succeeds and step B throws [null]: the run is FAILED with A's
    record only. *)
Lemma finished_status_reflects_steps_witness :
  ∃ execution' σ',
    execute Demo.now Demo.setTimeout Fixtures.odd_engine 10 "exec-1"
      Fixtures.write_then_null ∅ Demo.couriers Demo.start = Finished execution' σ' ∧
    ws_id <$> we_steps execution' = ["A"] ∧
    we_completedAt execution' = Some (Demo.now (world σ')) ∧
    ((we_status execution' = SUCCESS ∧ we_error execution' = VUndefined ∧
      Forall (λ s, ws_status s ≠ FAILED) (we_steps execution')) ∨
     (we_status execution' = FAILED ∧
      ∃ earlier failed,
        we_steps execution' = earlier ++ [failed] ∧
        Forall (λ s, ws_status s = SUCCESS) earlier ∧
        ws_status failed = FAILED ∧
        we_error execution' = ws_error failed) ∨
     (we_status execution' = FAILED ∧
      Forall (λ s, ws_status s = SUCCESS) (we_steps execution') ∧
      ∃ thrown, nullish thrown = true ∧
                we_error execution' = VStr (cannot_read thrown "message"))).
Proof.
  eexists _, _. split; [vm_compute; reflexivity|]. split; [reflexivity|].
  apply (finished_status_reflects_steps Demo.now Demo.setTimeout Fixtures.odd_engine 10
           "exec-1" Fixtures.write_then_null ∅ Demo.couriers Demo.start).
  vm_compute. reflexivity.
Defined.

Lemma run_starts_at_first_step_witness :
  ∃ step first rest,
    result_steps (Demo.run 10 Demo.custom_engine Demo.write_twice Demo.x_is_zero)
      !! 0%nat = Some step ∧
    steps Demo.write_twice = first :: rest ∧
    ws_id step = sd_id first ∧ ws_name step = sd_name first.
Proof.
  eexists.
  destruct (run_starts_at_first_step Demo.now Demo.setTimeout Demo.custom_engine 10
              "exec-1" Demo.write_twice Demo.x_is_zero Demo.couriers Demo.start _
              eq_refl) as (first & rest & H).
  exists first, rest. split; [reflexivity|exact H].
Defined.

Lemma forward_workflow_terminates_witness :
  ∃ execution' σ',
    Demo.run (length (steps Demo.write_twice)) Demo.custom_engine Demo.write_twice
      Demo.x_is_zero = Finished execution' σ' ∧
    (length (we_steps execution') ≤ length (steps Demo.write_twice))%nat.
Proof.
  apply (forward_workflow_terminates Demo.now Demo.setTimeout Demo.custom_engine
           "exec-1" Demo.write_twice Demo.x_is_zero Demo.couriers Demo.start).
  intros i stepDef target next Hi Htarget Hnext.
  destruct i as [|[|i]]; cbn in Hi; [| |done].
  - injection Hi as <-. injection Htarget as <-. vm_compute in Hnext.
    injection Hnext as <-. exists 1%nat. split; [lia|reflexivity].
  - injection Hi as <-. discriminate Htarget.
Defined.


(** Registering a custom executor changes nothing for the webhooks. *)
Lemma registration_is_per_type_witness :
  execute Demo.now Demo.setTimeout
    (registerExecutor Demo.engine "write_1" (Demo.writes_x 1)) 10 "exec-1"
    Demo.webhooks ∅ Demo.couriers Demo.start
  = Demo.run 10 Demo.engine Demo.webhooks ∅.
Proof.
  refine (proj1 (registration_is_per_type Demo.now Demo.setTimeout Demo.engine
                   "write_1" (Demo.writes_x 1) 10 "exec-1" Demo.webhooks ∅
                   Demo.couriers Demo.start _)).
  intros stepDef Hin. cbn in Hin.
  repeat (destruct Hin as [<-|Hin]; [discriminate|]). done.
Defined.

(** Rewiring the failure edges of the free-shipping workflow changes
    nothing. *)
Lemma failure_edges_are_dead_witness :
  Demo.run 10 Demo.engine Demo.free_shipping Demo.order_context
  = Demo.run 10 Demo.engine Fixtures.free_shipping_rewired Demo.order_context.
Proof.
  apply (failure_edges_are_dead Demo.now Demo.setTimeout Demo.engine 10 "exec-1"
           Demo.free_shipping Fixtures.free_shipping_rewired Demo.order_context
           Demo.couriers Demo.start).
  - apply builtin_executors_blind.
  - reflexivity.
  - repeat (constructor; [repeat split; reflexivity|]). constructor.
Defined.







(** The workflow whose first step throws [null] twice: no record. *)
Lemma thrown_null_leaves_no_record_witness :
  ∃ thrown execution' σ',
    nullish thrown = true ∧
    execute Demo.now Demo.setTimeout Fixtures.odd_engine 1 "exec-1"
      (Demo.workflow_of [Fixtures.null_step]) ∅ Demo.couriers Demo.start
    = Finished execution' σ' ∧
    we_steps execution' = [] ∧
    we_status execution' = FAILED ∧
    we_error execution' = VStr (cannot_read thrown "message") ∧
    we_completedAt execution' = Some (Demo.now (world σ')) ∧
    length (invocation_outcomes (drop (length (log Demo.start)) (log σ')))
    = Z.to_nat 2.
Proof.
  apply (thrown_null_leaves_no_record Demo.now Demo.setTimeout Fixtures.odd_engine 0
           "exec-1" (Demo.workflow_of [Fixtures.null_step]) ∅ Demo.couriers Demo.start
           Fixtures.null_step [] Fixtures.throws_null).
  - reflexivity.
  - reflexivity.
  - reflexivity.
  - reflexivity.
  - intros w. eexists. split; reflexivity.
Defined.

Lemma registry_stays_consistent_witness :
  ProviderRegistry.consistent
    (ProviderRegistry.unregister Fixtures.registry "yto" (world Demo.start)).1 ∧
  ProviderRegistry.consistent
    (ProviderRegistry.clear Fixtures.registry (world Demo.start)).1.
Proof.
  assert (ProviderRegistry.consistent Fixtures.registry) as H.
  { split; [|split].
    - apply NoDup_singleton.
    - by apply Forall_singleton.
    - intros k. cbn. rewrite lookup_empty. by intros [? ?]. }
  destruct (registry_stays_consistent Fixtures.registry H) as (_ & _ & H3 & H4 & _).
  split; [apply H3|apply H4].
Defined.

(** The registered, uninitialized courier is unknown to the engine. *)
Lemma engine_sees_initialized_providers_only_witness :
  CreateOrderStepExecutor Fixtures.create_with_yto Demo.order_context
    (ProviderRegistry.initialized_table Fixtures.registry) (world Demo.start)
  = (Throw (new_Error "Provider yto not found"), world Demo.start).
Proof.
  refine (proj2 (engine_sees_initialized_providers_only Fixtures.registry _)
            Fixtures.create_with_yto Demo.order_context (world Demo.start) "yto"
            eq_refl _ eq_refl).
  - split; [|split].
    + apply NoDup_singleton.
    + by apply Forall_singleton.
    + intros k. cbn. rewrite lookup_empty. by intros [? ?].
  - discriminate.
Defined.

(** A context without [input] against an initialized base provider. *)
Lemma create_order_step_validates_request_witness :
  CreateOrderStepExecutor Fixtures.create_step Demo.order_context
    Fixtures.based_couriers (world Demo.start)
  = (Throw (new_Error "Invalid create order request: missing required fields"),
     world Demo.start).
Proof.
  etransitivity.
  - apply (create_order_step_validates_request Fixtures.create_step Demo.order_context
             Fixtures.based_couriers (world Demo.start) (Some ∅) Fixtures.basic).
    + reflexivity.
    + reflexivity.
  - reflexivity.
Defined.

Lemma base_provider_free_shipping_is_null_witness :
  is_Some (checkFreeShipping (BaseProvider.as_provider (Some ∅) Fixtures.basic)) ∧
  CheckFreeShippingStepExecutor Demo.check_step Demo.order_context
    Fixtures.based_couriers (world Demo.start)
  = (Ok {| output := Some {[ "notification" := VNull ]};
           nextStepId := onFailure Demo.check_step |}, world Demo.start).
Proof.
  apply (base_provider_free_shipping_is_null Demo.check_step Demo.order_context
           Fixtures.based_couriers (world Demo.start) (Some ∅) Fixtures.basic).
  - reflexivity.
  - reflexivity.
  - reflexivity.
  - by right.
Defined.
